(** * The 8CM motif search tool: FASTA record store, motif engine, cysteine counter

    A shallow embedding of [2_8CM.py] and [8cm.py].

    - A Python [str] is a list of characters.  Characters are the code
      points below 256 ([ascii]); the whitespace table is the one of
      [str.isspace] restricted to that range.
    - A Python [dict] is a finite map ([gmap]); where the order of a
      dictionary shows, in what [main] prints, the module [Run] keeps the
      items in insertion order and is proved to hold the same entries.
    - The compiled regular expression is a list of nodes, each a single
      character class or a greedy bounded repetition of one, and [re]'s
      matcher is the backtracking search over it.
    - Console output ([print], the prompt of [input]) is the list of
      texts written, in the module [Run]. *)

From Stdlib Require Import Ascii String DecimalString.
From stdpp Require Import base option list gmap strings.

Local Open Scope char_scope.
Local Open Scope list_scope.

(** ** Strings *)

Abbreviation str := (list ascii).

(** A Python string literal. *)
Definition py (x : string) : str := list_ascii_of_string x.

Definition LF : ascii := "010".
Definition CR : ascii := "013".
Definition TAB : ascii := "009".

(** [str.isspace] on one character: U+0009..U+000D, U+001C..U+0020,
    U+0085 and U+00A0. *)
Definition isspace (c : ascii) : bool :=
  let n := N_of_ascii c in
  ((9 <=? n) && (n <=? 13) || (28 <=? n) && (n <=? 32)
   || (n =? 133) || (n =? 160))%N.

Fixpoint lstrip (s : str) : str :=
  match s with
  | c :: s' => if isspace c then lstrip s' else s
  | [] => []
  end.

Definition rstrip (s : str) : str := reverse (lstrip (reverse s)).

(** [s.strip()] *)
Definition strip (s : str) : str := rstrip (lstrip s).

(** [s.split(sep)] for a one-character separator. *)
Fixpoint split (sep : ascii) (s : str) : list str :=
  match s with
  | [] => [[]]
  | c :: s' =>
      if Ascii.eqb c sep then [] :: split sep s'
      else match split sep s' with
           | w :: ws => (c :: w) :: ws
           | [] => [[c]]
           end
  end.

(** [s.startswith('>')] *)
Definition startswith (c : ascii) (s : str) : bool :=
  match s with
  | x :: _ => Ascii.eqb x c
  | [] => false
  end.

(** [s.count(c)] for a one-character argument. *)
Fixpoint count (c : ascii) (s : str) : nat :=
  match s with
  | [] => 0
  | x :: s' => (if Ascii.eqb x c then 1 else 0) + count c s'
  end.

(** Iterating over a file opened in text mode: the text is cut after every
    line terminator, and with universal newlines each of "\n", "\r\n" and
    "\r" ends a line and is handed over as "\n". [cur] is the line read
    so far, last character first. *)
Fixpoint readlines_from (cur : str) (text : str) : list str :=
  match text with
  | [] => match cur with [] => [] | _ => [reverse cur] end
  | c :: rest =>
      if Ascii.eqb c LF then reverse (LF :: cur) :: readlines_from [] rest
      else if Ascii.eqb c CR then
        match rest with
        | c' :: rest' =>
            if Ascii.eqb c' LF
            then reverse (LF :: cur) :: readlines_from [] rest'
            else reverse (LF :: cur) :: readlines_from [] rest
        | [] => [reverse (LF :: cur)]
        end
      else readlines_from (c :: cur) rest
  end.

Definition readlines (text : str) : list str := readlines_from [] text.

(** ** The pattern language of the motif and its compilation *)

Module Re.

(** One character class: a literal, or [.] which (without DOTALL) is any
    character but the line feed. *)
Inductive atom :=
| Literal (c : ascii)
| Any.

(** A pattern item: one character of a class, or the greedy repetition
    [a{lo,hi}]. *)
Inductive node :=
| One (a : atom)
| MaxRepeat (lo hi : nat) (a : atom).

Abbreviation pattern := (list node).

Definition atom_ok (a : atom) (c : ascii) : bool :=
  match a with
  | Literal x => Ascii.eqb c x
  | Any => negb (Ascii.eqb c LF)
  end.

(** *** Parsing the pattern text *)

Definition is_digit (c : ascii) : bool :=
  let n := N_of_ascii c in ((48 <=? n) && (n <=? 57))%N.

Definition digit (c : ascii) : nat := N.to_nat (N_of_ascii c - 48).

Fixpoint read_digits (acc : nat) (s : str) : nat * str :=
  match s with
  | c :: s' => if is_digit c then read_digits (10 * acc + digit c) s' else (acc, s)
  | [] => (acc, [])
  end.

Definition is_special (c : ascii) : bool :=
  existsb (Ascii.eqb c) (py "\^$*+?{}[]()|").

(** [{lo,hi}] with both bounds written out. *)
Definition quantifier (s : str) : option (nat * nat * str) :=
  match s with
  | "{" :: (d :: _) as s1 =>
      if is_digit d then
        let '(lo, s2) := read_digits 0 s1 in
        match s2 with
        | "," :: (d' :: _) as s3 =>
            if is_digit d' then
              let '(hi, s4) := read_digits 0 s3 in
              match s4 with
              | "}" :: s5 => Some (lo, hi, s5)
              | _ => None
              end
            else None
        | _ => None
        end
      else None
  | _ => None
  end.

(** The fragment of the pattern syntax the motif is written in: literal
    characters, [.], and a [{lo,hi}] bound on either.  Anything else is
    rejected. *)
Fixpoint parse (fuel : nat) (s : str) : option pattern :=
  match fuel with
  | 0 => None
  | S fuel' =>
      match s with
      | [] => Some []
      | c :: s1 =>
          if is_special c then None
          else
            let a := if Ascii.eqb c "." then Any else Literal c in
            match s1 with
            | "{" :: _ =>
                match quantifier s1 with
                | Some (lo, hi, s2) =>
                    if Nat.leb lo hi
                    then cons (MaxRepeat lo hi a) <$> parse fuel' s2
                    else None
                | None => None
                end
            | _ => cons (One a) <$> parse fuel' s1
            end
      end
  end.

(** [re.compile(text)] *)
Definition compile (text : str) : option pattern :=
  parse (S (length text)) text.

(** *** Matching *)

(** The greedy repetition [a{lo,hi}] followed by the rest of the pattern
    [k]: take one more character while the class and the upper bound allow
    it, and give characters back one at a time, never below [lo], until
    the rest of the pattern matches. *)
Fixpoint repeat_greedy (k : str -> option str) (a : atom) (lo hi : nat)
    (s : str) : option str :=
  let stop := match lo with 0 => k s | S _ => None end in
  match hi with
  | 0 => stop
  | S hi' =>
      match s with
      | c :: s' =>
          if atom_ok a c then
            match repeat_greedy k a (pred lo) hi' s' with
            | Some rest => Some rest
            | None => stop
            end
          else stop
      | [] => stop
      end
  end.

(** [pattern.match(s)]: the pattern matched at the start of [s]; the
    result is what is left of [s] after the match. *)
Fixpoint match_at (p : pattern) (s : str) : option str :=
  match p with
  | [] => Some s
  | One a :: p' =>
      match s with
      | c :: s' => if atom_ok a c then match_at p' s' else None
      | [] => None
      end
  | MaxRepeat lo hi a :: p' => repeat_greedy (match_at p') a lo hi s
  end.

(** [pattern.finditer(s)], as the list of (start offset, matched text):
    a match is looked for at the current offset; after a match the search
    goes on at its end, after a failure one character further.  After an
    empty match the search asks for a match that is not the empty one at
    the same offset; for the patterns above an empty greedy match leaves
    no other match at its offset, and the search goes one character
    further.  [pos] is the offset of [s] in the whole string, and [fuel]
    bounds the number of steps ([finditer] gives enough). *)
Fixpoint finditer_from (fuel : nat) (p : pattern) (pos : nat) (s : str)
    : list (nat * str) :=
  match fuel with
  | 0 => []
  | S fuel' =>
      match match_at p s with
      | Some rest =>
          let n := length s - length rest in
          match n with
          | 0 => (pos, []) ::
                 match s with
                 | _ :: s' => finditer_from fuel' p (S pos) s'
                 | [] => []
                 end
          | S _ => (pos, take n s) :: finditer_from fuel' p (pos + n) rest
          end
      | None =>
          match s with
          | _ :: s' => finditer_from fuel' p (S pos) s'
          | [] => []
          end
      end
  end.

Definition finditer (p : pattern) (s : str) : list (nat * str) :=
  finditer_from (S (length s)) p 0 s.

(** [pattern.findall(s)] for a pattern without groups. *)
Definition findall (p : pattern) (s : str) : list str :=
  snd <$> finditer p s.

End Re.

(** ** [2_8CM.py] *)

(** The pattern text handed to [re.compile]. *)
Definition eight_cysteine_motif_source : str :=
  py "C.{2,70}C.{2,70}CC.{2,70}C.{0,70}C.{2,70}C.{2,70}C".

(** The items of the pattern: [C] and [.{lo,hi}]. *)
Definition cysteine : Re.node := Re.One (Re.Literal "C").
Definition gap (lo hi : nat) : Re.node := Re.MaxRepeat lo hi Re.Any.

(** [eight_cysteine_motif_regex], compiled. *)
Definition eight_cysteine_motif_regex : Re.pattern :=
  [cysteine; gap 2 70; cysteine; gap 2 70; cysteine; cysteine; gap 2 70;
   cysteine; gap 0 70; cysteine; gap 2 70; cysteine; gap 2 70; cysteine].

(** [len(eight_cysteine_motif_regex.findall(sequence))] *)
Definition motif_count (sequence : str) : nat :=
  length (Re.findall eight_cysteine_motif_regex sequence).

(** *** [parse_fasta] *)

(** What a call can end in: a value, or an exception on its way to the
    caller. *)
Inductive exception :=
| FileNotFoundError
| OtherException.

Inductive outcome (A : Type) :=
| Returns (a : A)
| Raises (e : exception).
Arguments Returns {A} a.
Arguments Raises {A} e.

(** What [open(file_path, 'r')] and the iteration over the file do: [open]
    raises, or the file opens and its text is read, to the end or up to
    an error. *)
Inductive source :=
| CannotOpen (e : exception)
| Opens (text : str) (read_error : option exception).

(** The three variables of the loop. *)
Record state := {
  proteins : gmap str str;
  current_protein_id : option str;
  current_sequence : list str
}.

Definition initial : state :=
  {| proteins := ∅; current_protein_id := None; current_sequence := [] |}.

(** [current_protein_id and current_sequence] as a condition: the
    identifier is neither [None] nor empty, and the list is not empty. *)
Definition complete (st : state) : bool :=
  match current_protein_id st, current_sequence st with
  | Some (_ :: _), _ :: _ => true
  | _, _ => false
  end.

(** [if current_protein_id and current_sequence:
       proteins[current_protein_id] = "".join(current_sequence)] *)
Definition store (st : state) : gmap str str :=
  match current_protein_id st with
  | Some id =>
      if complete st then <[id := concat (current_sequence st)]> (proteins st)
      else proteins st
  | None => proteins st
  end.

(** [line[1:].split(' ')[0]]; [split] returns at least one part. *)
Definition header_id (line : str) : str :=
  match split " " (tail line) with
  | id :: _ => id
  | [] => []
  end.

(** The body of the loop for a line that is not empty after [strip]. *)
Definition process (st : state) (line : str) : state :=
  if startswith ">" line then
    {| proteins := store st;
       current_protein_id := Some (header_id line);
       current_sequence := [] |}
  else
    {| proteins := proteins st;
       current_protein_id := current_protein_id st;
       current_sequence := current_sequence st ++ [line] |}.

(** The body of the loop. *)
Definition step (st : state) (raw : str) : state :=
  match strip raw with
  | [] => st
  | line => process st line
  end.

(** The [with] block on a file that opens and is read to its end. *)
Definition parse_text (text : str) : gmap str str :=
  store (foldl step initial (readlines text)).

(** The [try] block. *)
Definition parse_body (src : source) : outcome (gmap str str) :=
  match src with
  | CannotOpen e => Raises e
  | Opens text (Some e) => Raises e
  | Opens text None => Returns (parse_text text)
  end.

Definition parse_fasta (src : source) : outcome (gmap str str) :=
  match parse_body src with
  | Raises FileNotFoundError => Returns ∅
  | Raises OtherException => Returns ∅
  | Returns proteins => Returns proteins
  end.

(** *** [detect_two_or_more_8cm_motifs] *)

(** The body of the loop over [proteins_data.items()]. *)
Definition detect_step (protein_id sequence : str) (found : gmap str nat)
    : gmap str nat :=
  let motif_count := motif_count sequence in
  if (2 <=? motif_count)%nat then <[protein_id := motif_count]> found else found.

Definition detect_two_or_more_8cm_motifs (proteins_data : gmap str str)
    : gmap str nat :=
  map_fold detect_step ∅ proteins_data.

(** ** [8cm.py] *)

(** A record of [SeqIO.parse]. *)
Record SeqRecord := {
  record_id : str;
  record_description : str;
  record_seq : str
}.

(** The loop: [cysteine_count = record.seq.count('C')], and the record is
    appended when the count is 8. *)
Definition select_step (eight_cysteine_proteins : list SeqRecord)
    (record : SeqRecord) : list SeqRecord :=
  let cysteine_count := count "C" (record_seq record) in
  if (cysteine_count =? 8)%nat then eight_cysteine_proteins ++ [record]
  else eight_cysteine_proteins.

(** [eight_cysteine_proteins] when the loop ends. *)
Definition eight_cysteine_proteins (records : list SeqRecord)
    : list SeqRecord :=
  foldl select_step [] records.

(** [records] is what [SeqIO.parse(input_fasta_file, "fasta")] yields, or
    the exception it raises: the handler of the [try] block catches
    [FileNotFoundError] only.  [write output_fasta_file selected] is what
    [open(output_fasta_file, "w")] and [SeqIO.write] do with the selected
    records: they return, or raise an exception; they stand after the
    [try] block, so that no handler catches what they raise, a
    [FileNotFoundError] included.  The result is what is written to the
    output file: [None] when no file is written. *)
Definition extract_proteins_with_eight_cysteines
    (records : outcome (list SeqRecord)) (output_fasta_file : str)
    (write : str -> list SeqRecord -> outcome unit)
    : outcome (option (list SeqRecord)) :=
  match records with
  | Raises FileNotFoundError => Returns None
  | Raises e => Raises e
  | Returns records =>
      match eight_cysteine_proteins records with
      | [] => Returns None
      | selected =>
          match write output_fasta_file selected with
          | Returns _ => Returns (Some selected)
          | Raises e => Raises e
          end
      end
  end.

(** ** [2_8CM.py] with the order of its dictionaries and its output *)

(** [str(n)], as an f-string writes a count. *)
Definition str_of_nat (n : nat) : str :=
  list_ascii_of_string (NilZero.string_of_uint (Nat.to_uint n)).

(** What goes to the standard output: the text of a [print], which a line
    feed follows, or the prompt of [input], which none follows. *)
Inductive output :=
| Print (text : str)
| Prompt (text : str).

(** A dictionary as the list of its items in insertion order. *)
Module Dict.

(** [d[k] = v]: the value of a key that is there is replaced where it
    stands, a new key goes to the end. *)
Fixpoint setitem {V} (d : list (str * V)) (k : str) (v : V) : list (str * V) :=
  match d with
  | [] => [(k, v)]
  | (k', v') :: d' =>
      if decide (k' = k) then (k, v) :: d' else (k', v') :: setitem d' k v
  end.

End Dict.

Module Run.

Record state := {
  proteins : list (str * str);
  current_protein_id : option str;
  current_sequence : list str
}.

Definition initial : state :=
  {| proteins := []; current_protein_id := None; current_sequence := [] |}.

Definition complete (st : state) : bool :=
  match current_protein_id st, current_sequence st with
  | Some (_ :: _), _ :: _ => true
  | _, _ => false
  end.

Definition store (st : state) : list (str * str) :=
  match current_protein_id st with
  | Some id =>
      if complete st
      then Dict.setitem (proteins st) id (concat (current_sequence st))
      else proteins st
  | None => proteins st
  end.

Definition process (st : state) (line : str) : state :=
  if startswith ">" line then
    {| proteins := store st;
       current_protein_id := Some (header_id line);
       current_sequence := [] |}
  else
    {| proteins := proteins st;
       current_protein_id := current_protein_id st;
       current_sequence := current_sequence st ++ [line] |}.

Definition step (st : state) (raw : str) : state :=
  match strip raw with
  | [] => st
  | line => process st line
  end.

(** The [with] block on a file that is read to its end. *)
Definition parse_text (text : str) : list (str * str) :=
  store (foldl step initial (readlines text)).

Definition parse_body (src : source) : outcome (list (str * str)) :=
  match src with
  | CannotOpen e => Raises e
  | Opens text (Some e) => Raises e
  | Opens text None => Returns (parse_text text)
  end.

(** [parse_fasta(file_path)]: what it prints and what it returns.
    [message e] is [str(e)]. *)
Definition parse_fasta (file_path : str) (src : source)
    (message : exception -> str) : list output * list (str * str) :=
  match parse_body src with
  | Raises FileNotFoundError =>
      ([Print (py "Error: File not found at " ++ file_path)], [])
  | Raises e =>
      ([Print (py "An error occurred while reading the FASTA file: "
               ++ message e)], [])
  | Returns proteins => ([], proteins)
  end.

(** The body of the loop of the detection, on what was printed and
    found so far. *)
Definition detect_step (acc : list output * list (str * nat))
    (item : str * str) : list output * list (str * nat) :=
  let '(protein_id, sequence) := item in
  let motif_count := motif_count sequence in
  if (2 <=? motif_count)%nat then
    (acc.1 ++ [Print (py "  Found " ++ str_of_nat motif_count
                      ++ py " 8CM motifs in protein: " ++ protein_id)],
     Dict.setitem acc.2 protein_id motif_count)
  else acc.

(** [detect_two_or_more_8cm_motifs(proteins_data)]: what it prints and
    what it returns. *)
Definition detect_two_or_more_8cm_motifs (proteins_data : list (str * str))
    : list output * list (str * nat) :=
  foldl detect_step
    ([Print (py "Searching for proteins with two or more 8CM motifs using pattern: "
             ++ eight_cysteine_motif_source)], [])
    proteins_data.



End Run.

(** ** What a pattern matches *)

Module ReSpec.
Import Re.

(** [derives p ks m]: the text [m] is matched by the whole of [p] when the
    repetitions of [p] take, from left to right, the lengths [ks]. *)
Inductive derives : pattern -> list nat -> str -> Prop :=
| derives_nil : derives [] [] []
| derives_one a c p ks m :
    atom_ok a c = true ->
    derives p ks m ->
    derives (One a :: p) ks (c :: m)
| derives_rep lo hi a g p ks m :
    lo <= length g <= hi ->
    forallb (atom_ok a) g = true ->
    derives p ks m ->
    derives (MaxRepeat lo hi a :: p) (length g :: ks) (g ++ m).

Definition matches (p : pattern) (m : str) : Prop := exists ks, derives p ks m.

(** The preference of greedy repetitions: a longer first repetition wins,
    then a longer second one, and so on. *)
Fixpoint lex_le (ks ks' : list nat) : Prop :=
  match ks, ks' with
  | k :: r, k' :: r' => k < k' \/ (k = k' /\ lex_le r r')
  | _, _ => True
  end.

(** [m] is the greedy match of [p] at the start of [s], and [rest] follows
    it: among all the ways [p] matches a prefix of [s], the one preferred
    by [lex_le]. *)
Definition greedy_match (p : pattern) (s m rest : str) : Prop :=
  s = m ++ rest /\
  exists ks, derives p ks m /\
    forall ks' m' rest', derives p ks' m' -> s = m' ++ rest' -> lex_le ks' ks.

(** [p] matches at no prefix of [s]. *)
Definition no_match_at (p : pattern) (s : str) : Prop :=
  forall m rest, s = m ++ rest -> ~ matches p m.

(** Scanning from left to right for matches that do not overlap: at each
    position either no match starts there and the scan moves one character
    on, or the greedy match is reported and the scan goes on right after
    it (one character on when the match is empty). *)
Inductive scan (p : pattern) : str -> list str -> Prop :=
| scan_end : no_match_at p [] -> scan p [] []
| scan_end_empty : matches p [] -> scan p [] [[]]
| scan_skip c s ms :
    no_match_at p (c :: s) -> scan p s ms -> scan p (c :: s) ms
| scan_hit m rest ms :
    m <> [] -> greedy_match p (m ++ rest) m rest -> scan p rest ms ->
    scan p (m ++ rest) (m :: ms)
| scan_hit_empty c s ms :
    greedy_match p (c :: s) [] (c :: s) -> scan p s ms ->
    scan p (c :: s) ([] :: ms).

(** [s] has a part that [p] matches. *)
Definition contains (p : pattern) (s : str) : Prop :=
  exists pre m post, s = pre ++ m ++ post /\ matches p m.

(** The number of repetitions and of single characters of a pattern. *)
Fixpoint repeats (p : pattern) : nat :=
  match p with
  | [] => 0
  | One _ :: p' => repeats p'
  | MaxRepeat _ _ _ :: p' => S (repeats p')
  end.

Fixpoint ones (p : pattern) : nat :=
  match p with
  | [] => 0
  | One _ :: p' => S (ones p')
  | MaxRepeat _ _ _ :: p' => ones p'
  end.

End ReSpec.

(** ** The shape of the motif *)

(** A cysteine, a spacer, a cysteine, a spacer, two cysteines, a spacer,
    a cysteine, a spacer, a cysteine, a spacer, a cysteine, a spacer,
    a cysteine. *)
Definition motif_text (g1 g2 g3 g4 g5 g6 : str) : str :=
  "C" :: g1 ++ "C" :: g2 ++ "C" :: "C" :: g3 ++ "C" :: g4 ++ "C" :: g5
      ++ "C" :: g6 ++ ["C"].

(** The text [m] is a motif whose spacers satisfy [sp lo hi], where the
    fourth spacer may be empty and the others have two characters or
    more. *)
Definition motif_shape (sp : nat -> nat -> str -> Prop) (m : str) : Prop :=
  exists g1 g2 g3 g4 g5 g6,
    m = motif_text g1 g2 g3 g4 g5 g6 /\
    sp 2 70 g1 /\ sp 2 70 g2 /\ sp 2 70 g3 /\ sp 0 70 g4 /\
    sp 2 70 g5 /\ sp 2 70 g6.

(** A spacer of the specification: between [lo] and [hi] symbols, any
    symbols. *)
Definition spacer_any (lo hi : nat) (g : str) : Prop :=
  lo <= length g <= hi.

(** A spacer of the compiled pattern: between [lo] and [hi] symbols, none
    of them a line feed. *)
Definition spacer (lo hi : nat) (g : str) : Prop :=
  lo <= length g <= hi /\ LF ∉ g.

(** A residue string: residue symbols one after the other, on one line.
    The line feed ends a line of the file and is no residue symbol; the
    record store joins its sequences from lines cut at the line feeds
    and trimmed, so that each of them is a residue string. *)
Definition residue_string (s : str) : Prop := LF ∉ s.

(** ** The specification's reading of a FASTA text *)

Module FastaSpec.

(** The non-blank lines, trimmed. *)
Definition significant (text : str) : list str :=
  filter (fun line => line <> []) (strip <$> readlines text).

(** The lines cut at the headers: the lines before the first header, and
    each header's identifier with the lines up to the next header. *)
Fixpoint group (lines : list str) : list str * list (str * list str) :=
  match lines with
  | [] => ([], [])
  | line :: lines' =>
      let '(body, blocks) := group lines' in
      if startswith ">" line then ([], (header_id line, body) :: blocks)
      else (line :: body, blocks)
  end.

Definition orphans (text : str) : list str := (group (significant text)).1.
Definition blocks (text : str) : list (str * list str) :=
  (group (significant text)).2.

(** A block is a record when its identifier is not empty and it has a
    sequence line. *)
Definition is_record (b : str * list str) : Prop :=
  b.1 <> [] /\ b.2 <> [].

#[global] Instance is_record_dec b : Decision (is_record b).
Proof. unfold is_record. apply _. Defined.

Definition records (text : str) : list (str * list str) :=
  filter is_record (blocks text).

(** The collection of the records, entered in file order. *)
Definition enter (d : gmap str str) (r : str * list str) : gmap str str :=
  <[r.1 := concat r.2]> d.

Definition collect (rs : list (str * list str)) : gmap str str :=
  foldl enter ∅ rs.

(** The state with more sequence lines collected. *)
Definition collected (st : state) (body : list str) : state :=
  {| proteins := proteins st;
     current_protein_id := current_protein_id st;
     current_sequence := current_sequence st ++ body |}.

(** A line of the file holds a line feed at its end only. *)
Definition line_of_file (line : str) : Prop :=
  exists body, (LF ∉ body) /\ (line = body \/ line = body ++ [LF]).

End FastaSpec.

(** ** Sample texts *)

(** The shortest motif: every spacer at its lower bound. *)
Definition minimal_motif : str := py "CAACAACCAACCAACAAC".

(** A text of two lines with no residue string of the motif's shape in
    either: its first line ends after the first cysteine. *)
Definition motif_with_line_feed : str :=
  motif_text [LF; "A"] (py "AA") (py "AA") [] (py "AA") (py "AA").

(** A header whose description follows the identifier after a tab. *)
Definition tab_header_text : str :=
  py ">P1" ++ [TAB] ++ py "desc" ++ [LF] ++ py "ACGT" ++ [LF].

(** Two records under the identifier [A], with another between them. *)
Definition duplicate_text : str :=
  py ">A first" ++ [LF] ++ py "SEQ" ++ [LF] ++ py "ONE" ++ [LF]
  ++ py ">B" ++ [LF] ++ py "XX" ++ [LF]
  ++ py ">A second" ++ [LF] ++ py "TWO" ++ [LF].

(** ** Further notions *)

(** A text as the record store keeps it: not empty, without a line
    terminator, and with no whitespace at either end. *)
Definition trimmed (s : str) : Prop :=
  s <> [] /\ (LF ∉ s) /\ (CR ∉ s) /\
  (forall c, head s = Some c -> isspace c = false) /\
  (forall c, last s = Some c -> isspace c = false).

(** The same text with every line feed written as carriage return and
    line feed. *)
Fixpoint crlf (text : str) : str :=
  match text with
  | [] => []
  | c :: text' => if Ascii.eqb c LF then CR :: LF :: crlf text' else c :: crlf text'
  end.

(** The identifier of a header as the specification words it: of what
    follows the delimiter, the symbols before the first whitespace
    character. *)
Fixpoint up_to_whitespace (rest : str) : str :=
  match rest with
  | [] => []
  | c :: rest' => if isspace c then [] else c :: up_to_whitespace rest'
  end.

(** An identifier as the record store keeps it. *)
Definition identifier (id : str) : Prop :=
  id <> [] /\ (" " ∉ id) /\ (LF ∉ id) /\ (CR ∉ id).

(** What the detection loop records for one sequence: its count, when it
    is 2 or more. *)
Definition reported (sequence : str) : option nat :=
  if (2 <=? motif_count sequence)%nat then Some (motif_count sequence) else None.

(** The matches of a scan lie one after the other from [from] on: each
    starts at or after the end of the one before. *)
Fixpoint apart (from : nat) (found : list (nat * str)) : Prop :=
  match found with
  | [] => True
  | (i, m) :: found' => from <= i /\ apart (i + length m) found'
  end.

(** The identifiers of a list, each at its first place. *)
Definition first_occurrences (ids : list str) : list str :=
  reverse (remove_dups (reverse ids)).

(** A record entered in the ordered dictionary. *)
Definition enter_item (d : list (str * str)) (r : str * list str)
    : list (str * str) :=
  Dict.setitem d r.1 (concat r.2).

(** The ordered state with more sequence lines collected. *)
Definition run_collected (st : Run.state) (body : list str) : Run.state :=
  {| Run.proteins := Run.proteins st;
     Run.current_protein_id := Run.current_protein_id st;
     Run.current_sequence := Run.current_sequence st ++ body |}.

(** The proteins the detection keeps, in the order of the collection,
    each with its count. *)
Definition qualifying (proteins_data : list (str * str)) : list (str * nat) :=
  omap (fun item => pair item.1 <$> reported item.2) proteins_data.

(** The line the detection prints for a protein it keeps. *)
Definition found_line (item : str * nat) : output :=
  Print (py "  Found " ++ str_of_nat item.2
         ++ py " 8CM motifs in protein: " ++ item.1).


(** [sep.join(parts)] for a one-character separator. *)
Fixpoint join (sep : ascii) (parts : list str) : str :=
  match parts with
  | [] => []
  | [w] => w
  | w :: ws => w ++ sep :: join sep ws
  end.

(** ** The matcher *)

Section Matcher.
Import Re ReSpec.

Lemma lex_le_refl ks : lex_le ks ks.
Proof. induction ks as [|k ks IH]; simpl; auto. Qed.

Lemma app_eq_length_inv {A} (g g' t t' : list A) :
  g ++ t = g' ++ t' -> length g = length g' -> g = g' /\ t = t'.
Proof.
  revert g'. induction g as [|x g IH]; intros [|y g'] E L; simpl in *;
    try discriminate; auto.
  injection E as -> E. destruct (IH g' E) as [-> ->]; auto.
Qed.

Section Repeat.
Variable k : str -> option str.
Variable a : atom.

Lemma repeat_greedy_None lo hi s :
  repeat_greedy k a lo hi s = None ->
  forall g t, s = g ++ t -> lo <= length g <= hi ->
    forallb (atom_ok a) g = true -> k t = None.
Proof.
  revert lo s. induction hi as [|hi IH]; intros lo s H g t E L F.
  - destruct g; simpl in L; [|lia]. destruct lo; [|lia]. subst s. exact H.
  - destruct s as [|c s'].
    + destruct g; [|discriminate]. simpl in *. destruct lo; [|lia].
      subst t. exact H.
    + simpl in H. destruct g as [|c' g0]; simpl in *.
      * destruct lo; [|lia]. subst t.
        destruct (atom_ok a c); [|exact H].
        destruct (repeat_greedy k a _ hi s'); [discriminate H|exact H].
      * injection E as <- E. apply andb_true_iff in F as [Fc F].
        rewrite Fc in H.
        destruct (repeat_greedy k a (pred lo) hi s') eqn:R; [discriminate|].
        apply (IH _ _ R g0 t E); [lia|exact F].
Qed.

Lemma repeat_greedy_Some lo hi s r :
  repeat_greedy k a lo hi s = Some r ->
  exists g t, s = g ++ t /\ lo <= length g <= hi /\
    forallb (atom_ok a) g = true /\ k t = Some r /\
    forall g' t', s = g' ++ t' -> length g < length g' <= hi ->
      forallb (atom_ok a) g' = true -> k t' = None.
Proof.
  revert lo s. induction hi as [|hi IH]; intros lo s H.
  - simpl in H. destruct lo; [|discriminate].
    exists [], s. repeat split; simpl; auto. intros; lia.
  - destruct s as [|c s']; simpl in H.
    + destruct lo; [|discriminate].
      exists [], []. repeat split; simpl; auto; try lia.
      intros [|? ?] t' E L; [simpl in L; lia | discriminate].
    + destruct (atom_ok a c) eqn:Fc.
      * destruct (repeat_greedy k a (pred lo) hi s') eqn:R.
        -- injection H as H. subst.
           destruct (IH _ _ R) as (g & t & -> & L & F & K & M).
           exists (c :: g), t. repeat split; simpl; try lia; auto.
           ++ rewrite Fc, F. reflexivity.
           ++ intros [|c' g'] t' E L' F'; simpl in *; [lia|].
              injection E as <- E. apply andb_true_iff in F' as [_ F'].
              apply (M g' t' E); [lia|exact F'].
        -- destruct lo; [|discriminate].
           exists [], (c :: s'). repeat split; simpl; auto; try lia.
           intros [|c' g'] t' E L' F'; simpl in *; [lia|].
           injection E as <- E. apply andb_true_iff in F' as [_ F'].
           apply (repeat_greedy_None _ _ _ R g' t' E); [lia|exact F'].
      * destruct lo; [|discriminate].
        exists [], (c :: s'). repeat split; simpl; auto; try lia.
        intros [|c' g'] t' E L' F'; simpl in *; [lia|].
        injection E as <- E. rewrite Fc in F'. discriminate.
Qed.

End Repeat.

Lemma derives_nil_inv ks m : derives [] ks m -> ks = [] /\ m = [].
Proof. inversion 1; auto. Qed.

Lemma derives_one_inv a p ks m :
  derives (One a :: p) ks m ->
  exists c m0, m = c :: m0 /\ atom_ok a c = true /\ derives p ks m0.
Proof. inversion 1; subst; eauto. Qed.

Lemma derives_rep_inv lo hi a p ks m :
  derives (MaxRepeat lo hi a :: p) ks m ->
  exists g ks0 m0, ks = length g :: ks0 /\ m = g ++ m0 /\
    lo <= length g <= hi /\ forallb (atom_ok a) g = true /\ derives p ks0 m0.
Proof. inversion 1; subst. do 3 eexists; eauto. Qed.

(** The matcher fails only where the pattern matches no prefix. *)
Lemma match_at_None p s : match_at p s = None -> no_match_at p s.
Proof.
  revert s. induction p as [|[a|lo hi a] p IH]; intros s H m rest E [ks D].
  - discriminate.
  - apply derives_one_inv in D as (c & m0 & -> & Fc & D). subst s.
    simpl in H. rewrite Fc in H.
    apply (IH _ H m0 rest eq_refl). eexists; eauto.
  - apply derives_rep_inv in D as (g & ks0 & m0 & -> & -> & L & F & D).
    subst s. simpl in H. rewrite <- app_assoc in H.
    pose proof (repeat_greedy_None _ _ _ _ _ H g (m0 ++ rest) eq_refl L F) as K.
    apply (IH _ K m0 rest eq_refl). eexists; eauto.
Qed.

(** Where the matcher succeeds it returns the greedy match. *)
Lemma match_at_Some p s rest :
  match_at p s = Some rest -> exists m, greedy_match p s m rest.
Proof.
  revert s. induction p as [|[a|lo hi a] p IH]; intros s H; simpl in H.
  - injection H as ->. exists []. split; [reflexivity|].
    exists []. split; [constructor|]. intros ks' m' rest' D _.
    apply derives_nil_inv in D as [-> _]. exact I.
  - destruct s as [|c s']; [discriminate|].
    destruct (atom_ok a c) eqn:Fc; [|discriminate].
    destruct (IH _ H) as (m & -> & ks & D & M).
    exists (c :: m). split; [reflexivity|].
    exists ks. split; [constructor; auto|].
    intros ks' m' rest' D' E.
    apply derives_one_inv in D' as (c' & m0 & -> & _ & D').
    injection E as _ E. eapply M; eauto.
  - destruct (repeat_greedy_Some _ _ _ _ _ _ H) as (g & t & -> & L & F & K & M).
    destruct (IH _ K) as (m & -> & ks & D & Mx).
    exists (g ++ m). split; [rewrite app_assoc; reflexivity|].
    exists (length g :: ks). split; [constructor; auto|].
    intros ks' m' rest' D' E.
    apply derives_rep_inv in D' as (g0 & ks0 & m0 & -> & -> & L0 & F0 & D').
    simpl. rewrite <- app_assoc in E.
    destruct (lt_eq_lt_dec (length g0) (length g)) as [[Hlt|Heq]|Hgt].
    + left; exact Hlt.
    + right. split; [exact Heq|].
      destruct (app_eq_length_inv _ _ _ _ E (eq_sym Heq)) as [-> E'].
      eapply Mx; eauto.
    + exfalso.
      assert (K' : match_at p (m0 ++ rest') = None).
      { apply (M g0 (m0 ++ rest') E); [lia|auto]. }
      apply (match_at_None _ _ K' m0 rest' eq_refl). eexists; eauto.
Qed.

Lemma match_at_complete p m rest :
  matches p m -> is_Some (match_at p (m ++ rest)).
Proof.
  intros Hm. destruct (match_at p (m ++ rest)) eqn:E; [eauto|].
  exfalso. exact (match_at_None _ _ E m rest eq_refl Hm).
Qed.

Lemma greedy_match_matches p s m rest : greedy_match p s m rest -> matches p m.
Proof. intros (_ & ks & D & _). exists ks; exact D. Qed.

Lemma greedy_match_length p s m rest :
  greedy_match p s m rest -> length s - length rest = length m /\ take (length m) s = m.
Proof.
  intros [-> _]. rewrite length_app. split; [lia|].
  apply take_app_length.
Qed.

(** *** One step of the scan *)

Lemma finditer_from_hit fuel p pos m rest :
  match_at p (m ++ rest) = Some rest -> m <> [] ->
  finditer_from (S fuel) p pos (m ++ rest)
  = (pos, m) :: finditer_from fuel p (pos + length m) rest.
Proof.
  intros H Hm. simpl. rewrite H.
  replace (length (m ++ rest) - length rest) with (length m)
    by (rewrite length_app; lia).
  destruct m as [|c m]; [congruence|]. cbn [length].
  rewrite <- (take_app_length (c :: m) rest) at 2. reflexivity.
Qed.

Lemma finditer_from_hit_empty fuel p pos s :
  match_at p s = Some s ->
  finditer_from (S fuel) p pos s
  = (pos, []) :: match s with
                 | _ :: s' => finditer_from fuel p (S pos) s'
                 | [] => []
                 end.
Proof. intros H. simpl. rewrite H, Nat.sub_diag. reflexivity. Qed.

Lemma finditer_from_miss fuel p pos s :
  match_at p s = None ->
  finditer_from (S fuel) p pos s
  = match s with
    | _ :: s' => finditer_from fuel p (S pos) s'
    | [] => []
    end.
Proof. intros H. simpl. rewrite H. reflexivity. Qed.

Arguments finditer_from : simpl never.

(** The three ways a step of the scan at [s] can go. *)
Lemma match_at_cases p s :
  (match_at p s = None /\ no_match_at p s)
  \/ (match_at p s = Some s /\ greedy_match p s [] s)
  \/ (exists m rest, s = m ++ rest /\ m <> [] /\
        match_at p (m ++ rest) = Some rest /\ greedy_match p (m ++ rest) m rest).
Proof.
  destruct (match_at p s) as [rest|] eqn:H.
  - destruct (match_at_Some _ _ _ H) as [m G].
    destruct m as [|c m].
    + right; left. destruct G as [E G]. simpl in E. subst rest.
      split; [reflexivity|]. split; [reflexivity|exact G].
    + right; right. exists (c :: m), rest. pose proof G as [E _]. subst s.
      split; [reflexivity|]. split; [discriminate|]. split; assumption.
  - left. split; [reflexivity|]. apply match_at_None, H.
Qed.

(** The scan has fuel for the whole string. *)
Lemma finditer_from_fuel p fuel fuel' pos s :
  length s < fuel -> length s < fuel' ->
  finditer_from fuel p pos s = finditer_from fuel' p pos s.
Proof.
  revert fuel' pos s. induction fuel as [|fuel IH]; intros [|fuel'] pos s L L';
    try lia.
  destruct (match_at_cases p s) as [[H _]|[[H _]|(m & rest & -> & Hm & H & _)]].
  - rewrite !finditer_from_miss by exact H.
    destruct s as [|c s']; [reflexivity|]. simpl in *. apply IH; lia.
  - rewrite !finditer_from_hit_empty by exact H.
    destruct s as [|c s']; [reflexivity|]. simpl in *. f_equal. apply IH; lia.
  - rewrite !finditer_from_hit by assumption. f_equal.
    rewrite length_app in *. destruct m; [congruence|]. simpl in *.
    apply IH; lia.
Qed.

(** The matches the scan reports are those of [scan]. *)
Lemma finditer_from_scan p fuel pos s :
  length s < fuel -> scan p s (snd <$> finditer_from fuel p pos s).
Proof.
  revert pos s. induction fuel as [|fuel IH]; intros pos s L; [lia|].
  destruct (match_at_cases p s) as [[H N]|[[H G]|(m & rest & -> & Hm & H & G)]].
  - rewrite finditer_from_miss by exact H.
    destruct s as [|c s']; [constructor; exact N|].
    apply scan_skip; [exact N|]. simpl in L. apply IH; lia.
  - rewrite finditer_from_hit_empty by exact H.
    destruct s as [|c s']; simpl.
    + apply scan_end_empty. eapply greedy_match_matches, G.
    + apply scan_hit_empty; [exact G|]. simpl in L. apply IH; lia.
  - rewrite finditer_from_hit by assumption. simpl.
    apply scan_hit; auto. apply IH.
    rewrite length_app in L. destruct m; [congruence|]. simpl in L. lia.
Qed.

Lemma findall_scan p s : scan p s (findall p s).
Proof. apply finditer_from_scan. lia. Qed.

(** *** The scan is determined *)

Lemma derives_length p ks m :
  derives p ks m -> length ks = repeats p /\ length m = ones p + sum_list ks.
Proof.
  induction 1 as [|a c p ks m F D [IH1 IH2]|lo hi a g p ks m L F D [IH1 IH2]];
    simpl; [auto| |]; rewrite ?length_app; split; lia.
Qed.

Lemma lex_le_antisym ks ks' :
  length ks = length ks' -> lex_le ks ks' -> lex_le ks' ks -> ks = ks'.
Proof.
  revert ks'. induction ks as [|k ks IH]; intros [|k' ks'] L A B;
    simpl in *; try discriminate; auto.
  destruct A as [A|[-> A]]; destruct B as [B|[B1 B]]; try lia.
  f_equal. apply IH; auto.
Qed.

Lemma greedy_match_unique p s m rest m' rest' :
  greedy_match p s m rest -> greedy_match p s m' rest' ->
  m = m' /\ rest = rest'.
Proof.
  intros (E & ks & D & M) (E' & ks' & D' & M').
  pose proof (M _ _ _ D' E') as A. pose proof (M' _ _ _ D E) as B.
  destruct (derives_length _ _ _ D) as [L1 L2].
  destruct (derives_length _ _ _ D') as [L1' L2'].
  assert (ks = ks') by (apply lex_le_antisym; auto; congruence). subst ks'.
  subst s. apply app_eq_length_inv; [exact E'|congruence].
Qed.

Lemma scan_unique p s ms ms' : scan p s ms -> scan p s ms' -> ms = ms'.
Proof.
  intros S1. revert ms'.
  induction S1 as [N|Hm|c s ms N S1 IH|m rest ms Hm G S1 IH|c s ms G S1 IH];
    intros ms' S2.
  - inversion S2 as [|Hm'| | |]; subst; auto.
    + exfalso. apply (N [] [] eq_refl Hm').
    + destruct m; [congruence|discriminate].
  - inversion S2 as [N'| | | |]; subst; auto.
    + exfalso. apply (N' [] [] eq_refl Hm).
    + destruct m; [congruence|discriminate].
  - inversion S2 as [| |c' s' ms0 N' S2'|m' rest' ms0 Hm' G' S2' E|c' s' ms0 G' S2'];
      subst.
    + apply IH, S2'.
    + exfalso. rewrite <- E in N.
      apply (N m' rest' eq_refl). eapply greedy_match_matches, G'.
    + exfalso. apply (N [] (c :: s) eq_refl). eapply greedy_match_matches, G'.
  - inversion S2 as [N' E|Hm' E|c' s' ms0 N' S2' E|m' rest' ms0 Hm' G' S2' E
                    |c' s' ms0 G' S2' E]; subst.
    + destruct m; [congruence|discriminate].
    + destruct m; [congruence|discriminate].
    + exfalso. rewrite E in N'.
      apply (N' m rest eq_refl). eapply greedy_match_matches, G.
    + rewrite E in G'.
      destruct (greedy_match_unique _ _ _ _ _ _ G G') as [-> ->].
      f_equal. apply IH, S2'.
    + exfalso. rewrite E in G'.
      destruct (greedy_match_unique _ _ _ _ _ _ G G') as [-> _]. congruence.
  - inversion S2 as [| |c' s' ms0 N' S2'|m' rest' ms0 Hm' G' S2' E|c' s' ms0 G' S2'];
      subst.
    + exfalso. apply (N' [] (c :: s) eq_refl). eapply greedy_match_matches, G.
    + exfalso. rewrite <- E in G.
      destruct (greedy_match_unique _ _ _ _ _ _ G G') as [<- _]. congruence.
    + f_equal. apply IH, S2'.
Qed.

(** *** Matches on either side of a boundary *)

Lemma app_eq_app_le {A} (m rest s1 s2 : list A) :
  m ++ rest = s1 ++ s2 -> length m <= length s1 ->
  exists t, s1 = m ++ t /\ rest = t ++ s2.
Proof.
  intros E L. apply app_eq_inv in E as [(k & -> & ->)|(k & -> & ->)].
  - rewrite length_app in L. destruct k; [|simpl in L; lia].
    exists []. rewrite !app_nil_r. split; reflexivity.
  - exists k. auto.
Qed.

Lemma contains_tail p c s s2 :
  no_match_at p ((c :: s) ++ s2) -> contains p (c :: s) -> contains p s.
Proof.
  intros N (pre & m & post & E & Hm). destruct pre as [|c' pre].
  - exfalso. simpl in E. rewrite E in N.
    apply (N m (post ++ s2)); [|exact Hm]. rewrite <- !app_assoc. reflexivity.
  - injection E as _ ->. exists pre, m, post. auto.
Qed.

Section Boundary.
Variable p : pattern.
Hypothesis p_nonempty : ~ matches p [].

Lemma finditer_from_contains fuel pos s :
  length s < fuel -> contains p s -> finditer_from fuel p pos s <> [].
Proof.
  revert pos s. induction fuel as [|fuel IH]; intros pos s L Hc; [lia|].
  destruct (match_at_cases p s) as [[H N]|[[H G]|(m & rest & -> & Hm & H & G)]].
  - rewrite finditer_from_miss by exact H. destruct s as [|c s'].
    + destruct Hc as (pre & m & post & E & Hm).
      destruct pre; [|discriminate]. destruct m; [|discriminate].
      contradiction.
    + simpl in L. apply IH; [lia|].
      apply (contains_tail p c s' []); rewrite ?app_nil_r; assumption.
  - rewrite finditer_from_hit_empty by exact H. discriminate.
  - rewrite finditer_from_hit by assumption. discriminate.
Qed.

(** When no reported match that starts in [s1] runs past the end of [s1],
    the scan of [s1 ++ s2] is a scan of [s1] followed by the scan of [s2]. *)
Lemma finditer_from_boundary fuel pos s1 s2 :
  length (s1 ++ s2) < fuel ->
  (forall i m, (i, m) ∈ finditer_from fuel p pos (s1 ++ s2) ->
     i < pos + length s1 -> i + length m <= pos + length s1) ->
  exists found,
    finditer_from fuel p pos (s1 ++ s2)
    = found ++ finditer_from fuel p (pos + length s1) s2
    /\ (contains p s1 -> found <> []).
Proof.
  revert pos s1. induction fuel as [|fuel IH]; intros pos s1 L Hsp; [lia|].
  destruct s1 as [|c s1].
  { exists []. simpl. rewrite Nat.add_0_r. split; [reflexivity|].
    intros (pre & m & post & E & Hm).
    destruct pre; [|discriminate]. destruct m; [|discriminate].
    contradiction. }
  destruct (match_at_cases p ((c :: s1) ++ s2))
    as [[H N]|[[H G]|(m & rest & E & Hm & H & G)]].
  - rewrite finditer_from_miss in * by exact H. simpl in L, Hsp |- *.
    destruct (IH (S pos) s1) as (found & Ef & Hf); [lia| |].
    { intros i m Hin Hi. specialize (Hsp i m Hin). lia. }
    exists found. split.
    + rewrite Ef. f_equal.
      replace (pos + S (length s1)) with (S pos + length s1) by lia.
      apply finditer_from_fuel; rewrite length_app in L; lia.
    + intros Hc. apply Hf. eapply contains_tail; eauto.
  - exfalso. apply p_nonempty. eapply greedy_match_matches, G.
  - rewrite E in *. rewrite finditer_from_hit in * by assumption.
    assert (Lm : length m <= length (c :: s1)).
    { specialize (Hsp pos m (list_elem_of_here _ _)). simpl in *. lia. }
    destruct (app_eq_app_le _ _ _ _ (eq_sym E) Lm) as (t & E1 & ->).
    assert (Lt : length (t ++ s2) < fuel).
    { rewrite !length_app in *. destruct m; [congruence|]. simpl in L. lia. }
    destruct (IH (pos + length m) t) as (found & Ef & _); [exact Lt| |].
    { intros i m' Hin Hi. rewrite E1, length_app in Hsp.
      specialize (Hsp i m' (list_elem_of_further _ _ _ Hin)). lia. }
    exists ((pos, m) :: found). split; [|discriminate].
    rewrite Ef. cbn [app]. do 2 f_equal. rewrite E1, length_app.
    replace (pos + (length m + length t)) with (pos + length m + length t)
      by lia.
    rewrite length_app in Lt. apply finditer_from_fuel; lia.
Qed.

Lemma finditer_boundary s1 s2 :
  contains p s1 -> contains p s2 ->
  (forall i m, (i, m) ∈ finditer p (s1 ++ s2) ->
     i < length s1 -> i + length m <= length s1) ->
  2 <= length (finditer p (s1 ++ s2)).
Proof.
  intros H1 H2 Hsp. unfold finditer in *.
  destruct (finditer_from_boundary (S (length (s1 ++ s2))) 0 s1 s2)
    as (found & -> & Hf); [lia|exact Hsp|].
  rewrite length_app.
  assert (found <> []) by auto.
  assert (finditer_from (S (length (s1 ++ s2))) p (0 + length s1) s2 <> []).
  { apply finditer_from_contains; [rewrite length_app; lia|exact H2]. }
  destruct found; [congruence|].
  destruct (finditer_from _ p _ s2); [congruence|]. simpl. lia.
Qed.

End Boundary.

(** *** Counting a character in the reported matches *)

Lemma count_app c s t : count c (s ++ t) = count c s + count c t.
Proof. induction s as [|x s IH]; simpl; [reflexivity|]. rewrite IH. lia. Qed.

(** Reported matches do not overlap: a quantity that adds up over
    concatenation, and of which every match has [n], is in [s] at least
    [n] times the number of matches. *)
Section Measure.
Variable f : str -> nat.
Hypothesis f_app : forall s t, f (s ++ t) = f s + f t.

Lemma scan_measure p n s ms :
  ~ matches p [] ->
  (forall m, matches p m -> n <= f m) ->
  scan p s ms -> n * length ms <= f s.
Proof.
  intros Hne Hn S1.
  induction S1 as [N|Hm|x s ms N S1 IH|m rest ms Hm G S1 IH|x s ms G S1 IH].
  - simpl. lia.
  - contradiction.
  - change (x :: s) with ([x] ++ s). rewrite f_app. lia.
  - pose proof (Hn m (greedy_match_matches _ _ _ _ G)).
    rewrite f_app. simpl. lia.
  - exfalso. eapply Hne, greedy_match_matches, G.
Qed.

End Measure.

Lemma match_at_whole p s : match_at p s = Some [] -> matches p s.
Proof.
  intros (m & E & ks & D & _)%match_at_Some.
  rewrite app_nil_r in E. subst m. exists ks. exact D.
Qed.

End Matcher.

(** ** The motif *)

Section Motif.
Import Re ReSpec.

Lemma forallb_any g : forallb (atom_ok Any) g = true <-> LF ∉ g.
Proof.
  induction g as [|c g IH]; simpl.
  - split; [intros _; apply not_elem_of_nil|reflexivity].
  - rewrite andb_true_iff, IH, not_elem_of_cons, negb_true_iff.
    rewrite Ascii.eqb_neq. intuition congruence.
Qed.

Lemma atom_ok_literal c x : atom_ok (Literal c) x = true <-> x = c.
Proof. apply Ascii.eqb_eq. Qed.

Ltac invert_derives D :=
  repeat first
    [ apply derives_one_inv in D as (? & ? & -> & ?%atom_ok_literal & D)
    | apply derives_rep_inv in D as (? & ? & ? & -> & -> & ? & ?%forallb_any & D)
    | apply derives_nil_inv in D as [-> ->] ].

Lemma matches_motif m :
  matches eight_cysteine_motif_regex m <-> motif_shape spacer m.
Proof.
  unfold eight_cysteine_motif_regex, cysteine, gap. split.
  - intros [ks D]. invert_derives D. subst.
    do 6 eexists. split; [reflexivity|]. unfold spacer. auto 10.
  - intros (g1 & g2 & g3 & g4 & g5 & g6 & -> & S1 & S2 & S3 & S4 & S5 & S6).
    unfold spacer in *. eexists. unfold motif_text.
    repeat first
      [ apply derives_nil
      | apply derives_one; [reflexivity|]
      | apply derives_rep; [tauto|apply forallb_any; tauto|] ].
Qed.

Lemma motif_text_length g1 g2 g3 g4 g5 g6 :
  length (motif_text g1 g2 g3 g4 g5 g6)
  = 8 + length g1 + length g2 + length g3 + length g4 + length g5 + length g6.
Proof.
  unfold motif_text. repeat (rewrite ?length_app; cbn [length]). lia.
Qed.

Lemma motif_text_cysteines g1 g2 g3 g4 g5 g6 :
  8 <= count "C" (motif_text g1 g2 g3 g4 g5 g6).
Proof.
  unfold motif_text.
  repeat (rewrite ?count_app; cbn [count Ascii.eqb Bool.eqb]). lia.
Qed.

Lemma matches_motif_length m :
  matches eight_cysteine_motif_regex m -> 18 <= length m.
Proof.
  intros (g1 & g2 & g3 & g4 & g5 & g6 & -> & S1 & S2 & S3 & S4 & S5 & S6)%matches_motif.
  rewrite motif_text_length. unfold spacer in *. lia.
Qed.

Lemma matches_motif_cysteines m :
  matches eight_cysteine_motif_regex m -> 8 <= count "C" m.
Proof.
  intros (g1 & g2 & g3 & g4 & g5 & g6 & -> & _)%matches_motif.
  apply motif_text_cysteines.
Qed.

Lemma motif_nonempty : ~ matches eight_cysteine_motif_regex [].
Proof. intros H%matches_motif_length. simpl in H. lia. Qed.

Lemma motif_count_finditer s :
  motif_count s = length (finditer eight_cysteine_motif_regex s).
Proof. unfold motif_count, findall. apply length_fmap. Qed.

(** Without a line feed in the text, the spacers of the specification
    and those of the compiled pattern are the same. *)
Lemma motif_shape_line_feed m :
  LF ∉ m -> motif_shape spacer_any m <-> motif_shape spacer m.
Proof.
  intros Hlf. split.
  - intros (g1 & g2 & g3 & g4 & g5 & g6 & -> & S1 & S2 & S3 & S4 & S5 & S6).
    unfold motif_text in Hlf.
    repeat (rewrite ?not_elem_of_cons, ?not_elem_of_app in Hlf).
    exists g1, g2, g3, g4, g5, g6. split; [reflexivity|].
    unfold spacer, spacer_any in *. tauto.
  - intros (g1 & g2 & g3 & g4 & g5 & g6 & -> & S1 & S2 & S3 & S4 & S5 & S6).
    exists g1, g2, g3, g4, g5, g6. unfold spacer, spacer_any in *. tauto.
Qed.

(** A text the compiled pattern accepts holds no line feed. *)
Lemma motif_shape_residues m : motif_shape spacer m -> residue_string m.
Proof.
  intros (g1 & g2 & g3 & g4 & g5 & g6 & -> & S1 & S2 & S3 & S4 & S5 & S6).
  unfold spacer in *. unfold residue_string, motif_text.
  repeat (rewrite ?not_elem_of_cons, ?not_elem_of_app).
  assert (LF <> "C") by discriminate.
  pose proof (not_elem_of_nil LF). tauto.
Qed.

(** The spacers are written with [.], which stops at a line feed: a
    match lies within one line. *)
Remark spacer_stops_at_line_feed :
  ~ residue_string motif_with_line_feed /\
  match_at eight_cysteine_motif_regex motif_with_line_feed = None /\
  motif_count motif_with_line_feed = 0.
Proof.
  split; [|split; vm_compute; reflexivity].
  intros H. apply H. unfold motif_with_line_feed, motif_text.
  apply list_elem_of_further, list_elem_of_here.
Qed.

End Motif.

(** ** The record store and the pipelines *)

Section RecordStore.
Import FastaSpec.

(** *** The loop and the blocks of the text *)

(** Blank lines are skipped: the loop is [process] over the significant
    lines. *)
Lemma foldl_step_significant raws st :
  foldl step st raws = foldl process st (filter (fun line => line <> []) (strip <$> raws)).
Proof.
  revert st. induction raws as [|raw raws IH]; intros st; [reflexivity|].
  rewrite fmap_cons, filter_cons. cbn [foldl]. unfold step at 2.
  destruct (strip raw) as [|c line] eqn:E.
  - rewrite decide_False by auto. apply IH.
  - rewrite decide_True by discriminate. cbn [foldl]. apply IH.
Qed.

Lemma store_collected_nil st : store (collected st []) = store st.
Proof.
  destruct st as [d id sq]. unfold collected, store, complete; simpl.
  rewrite app_nil_r. reflexivity.
Qed.

Lemma store_header d id body :
  store {| proteins := d; current_protein_id := Some id;
           current_sequence := body |}
  = if decide (is_record (id, body)) then enter d (id, body) else d.
Proof.
  unfold store, complete, is_record, enter; simpl.
  destruct (decide _) as [[H1 H2]|Hn];
    destruct id as [|c id], body as [|l body]; simpl in *;
    try congruence; try reflexivity.
  exfalso. apply Hn. split; discriminate.
Qed.

(** The loop stores the records of the blocks, the first block being
    completed by what the state already holds. *)
Lemma store_foldl_process lines st :
  store (foldl process st lines)
  = foldl enter (store (collected st (group lines).1))
      (filter is_record (group lines).2).
Proof.
  revert st. induction lines as [|line lines IH]; intros st.
  - simpl. rewrite store_collected_nil. reflexivity.
  - cbn [foldl group]. rewrite IH.
    destruct (group lines) as [body bs]. unfold process.
    destruct (startswith ">" line); cbn [fst snd].
    + rewrite store_collected_nil, filter_cons.
      unfold collected at 1; cbn [proteins current_protein_id current_sequence app].
      rewrite store_header.
      destruct (decide (is_record (header_id line, body))); reflexivity.
    + f_equal. f_equal. unfold collected; simpl.
      rewrite <- app_assoc. reflexivity.
Qed.

(** What is parsed from a readable text is the collection of its
    records. *)
Lemma parse_text_records text : parse_text text = collect (records text).
Proof.
  unfold parse_text, readlines, collect, records, blocks, significant.
  rewrite foldl_step_significant, store_foldl_process. reflexivity.
Qed.

(** *** Looking up the collection *)

Lemma foldl_enter_absent d rs id :
  id ∉ rs.*1 -> foldl enter d rs !! id = d !! id.
Proof.
  revert d. induction rs as [|[k v] rs IH]; intros d Hn; [reflexivity|].
  rewrite fmap_cons, not_elem_of_cons in Hn. destruct Hn as [Hk Hn].
  cbn [foldl]. rewrite IH by exact Hn. unfold enter; simpl.
  apply lookup_insert_ne. simpl in Hk. congruence.
Qed.

Lemma foldl_enter_last d earlier id lines later :
  id ∉ later.*1 ->
  foldl enter d (earlier ++ (id, lines) :: later) !! id = Some (concat lines).
Proof.
  intros Hn. rewrite foldl_app. cbn [foldl].
  rewrite foldl_enter_absent by exact Hn. unfold enter; simpl.
  apply lookup_insert_eq.
Qed.

Lemma foldl_enter_is_Some d rs id :
  is_Some (foldl enter d rs !! id) <-> is_Some (d !! id) \/ id ∈ rs.*1.
Proof.
  revert d. induction rs as [|[k v] rs IH]; intros d.
  - simpl. rewrite elem_of_nil. tauto.
  - cbn [foldl]. rewrite IH, fmap_cons, elem_of_cons. unfold enter; simpl.
    rewrite lookup_insert_is_Some. destruct (decide (k = id)); intuition congruence.
Qed.

Lemma group_headers_only lines :
  Forall (fun line => startswith ">" line = true) lines ->
  (group lines).1 = [] /\ Forall (fun b => b.2 = []) (group lines).2.
Proof.
  induction 1 as [|line lines H _ [IH1 IH2]]; simpl; [auto|].
  destruct (group lines) as [body bs]. rewrite H. simpl in *. subst body.
  split; [reflexivity|]. constructor; auto.
Qed.

Lemma group_no_header lines :
  Forall (fun line => startswith ">" line = false) lines ->
  (group lines).2 = [].
Proof.
  induction 1 as [|line lines H _ IH]; simpl; [auto|].
  destruct (group lines) as [body bs]. rewrite H. exact IH.
Qed.

Lemma filter_is_record_nil bs :
  Forall (fun b : str * list str => b.2 = []) bs -> filter is_record bs = [].
Proof.
  induction 1 as [|b bs H _ IH]; [reflexivity|].
  rewrite filter_cons, decide_False, IH; [reflexivity|].
  intros [_ ?]. contradiction.
Qed.

(** *** Parsed sequences hold no line feed *)

Lemma lstrip_elem x s : x ∈ lstrip s -> x ∈ s.
Proof.
  induction s as [|c s IH]; simpl; [auto|].
  destruct (isspace c); [|auto]. intros H. right. auto.
Qed.

Lemma strip_elem x s : x ∈ strip s -> x ∈ s.
Proof.
  unfold strip, rstrip. rewrite elem_of_reverse. intros H%lstrip_elem.
  rewrite elem_of_reverse in H. apply lstrip_elem, H.
Qed.

Lemma lstrip_snoc s c :
  lstrip (s ++ [c])
  = match lstrip s with
    | [] => lstrip [c]
    | t => t ++ [c]
    end.
Proof.
  induction s as [|x s IH]; [reflexivity|]. simpl.
  destruct (isspace x); [exact IH|reflexivity].
Qed.

(** A whitespace character at the end of a line does not show in the
    trimmed line. *)
Lemma strip_snoc_space s c : isspace c = true -> strip (s ++ [c]) = strip s.
Proof.
  intros Hc. unfold strip.
  assert (R : forall t, rstrip (t ++ [c]) = rstrip t).
  { intros t. unfold rstrip. rewrite reverse_app. simpl. rewrite Hc.
    reflexivity. }
  rewrite lstrip_snoc. destruct (lstrip s) as [|x t].
  - simpl. rewrite Hc. reflexivity.
  - apply R.
Qed.

(** Every line read from the file is such a line. *)
Lemma readlines_from_line_feed n text cur :
  length text <= n -> LF ∉ cur ->
  Forall line_of_file (readlines_from cur text).
Proof.
  revert text cur. induction n as [|n IH]; intros text cur Hn Hcur.
  - destruct text; [|simpl in Hn; lia].
    simpl. destruct cur as [|x cur]; constructor; [|constructor].
    exists (reverse (x :: cur)). rewrite elem_of_reverse. auto.
  - assert (Hline : line_of_file (reverse (LF :: cur))).
    { exists (reverse cur). rewrite elem_of_reverse, reverse_cons. auto. }
    assert (Hnil : LF ∉ ([] : str)) by apply not_elem_of_nil.
    destruct text as [|c text]; simpl in *.
    { destruct cur as [|x cur]; constructor; [|constructor].
      exists (reverse (x :: cur)). rewrite elem_of_reverse. auto. }
    destruct (Ascii.eqb_spec c LF) as [->|Hlf].
    + constructor; [exact Hline|]. apply IH; [lia|exact Hnil].
    + destruct (Ascii.eqb c CR).
      * destruct text as [|c' text']; [constructor; auto|].
        simpl in Hn.
        destruct (Ascii.eqb c' LF); (constructor; [exact Hline|]);
          apply IH; simpl; auto; lia.
      * apply IH; [lia|].
        rewrite not_elem_of_cons. split; [congruence|exact Hcur].
Qed.

Lemma strip_line_of_file line : line_of_file line -> LF ∉ strip line.
Proof.
  intros (body & Hb & [->| ->]).
  - intros H%strip_elem. contradiction.
  - rewrite strip_snoc_space by reflexivity.
    intros H%strip_elem. contradiction.
Qed.

Lemma significant_line_feed text :
  Forall (fun line => LF ∉ line) (significant text).
Proof.
  unfold significant. apply Forall_forall. intros line Hin.
  apply list_elem_of_filter in Hin as [_ Hin].
  apply list_elem_of_fmap_1 in Hin as (raw & -> & Hin).
  apply strip_line_of_file.
  pose proof (readlines_from_line_feed (length text) text [] (le_n _)
                (not_elem_of_nil _)) as H.
  rewrite Forall_forall in H. apply H, Hin.
Qed.

(** The lines of the blocks are lines of the text. *)
Lemma group_lines lines :
  (forall line, line ∈ (group lines).1 -> line ∈ lines) /\
  (forall b line, b ∈ (group lines).2 -> line ∈ b.2 -> line ∈ lines).
Proof.
  induction lines as [|l lines [IH1 IH2]]; simpl.
  - split; [auto|]. intros b line H. apply elem_of_nil in H. contradiction.
  - destruct (group lines) as [body bs]. simpl in *.
    destruct (startswith ">" l); simpl; split.
    + intros line H. apply elem_of_nil in H. contradiction.
    + intros b line [->|Hb]%elem_of_cons Hl; simpl in *; right; eauto.
    + intros line [->|H]%elem_of_cons; [left|right; auto].
    + intros b line Hb Hl. right. eauto.
Qed.

Lemma foldl_enter_lookup d rs id sequence :
  foldl enter d rs !! id = Some sequence ->
  d !! id = Some sequence
  \/ exists lines, (id, lines) ∈ rs /\ sequence = concat lines.
Proof.
  revert d. induction rs as [|[k v] rs IH]; intros d H; [left; exact H|].
  cbn [foldl] in H. apply IH in H as [H|(lines & Hin & ->)].
  - unfold enter in H; simpl in H.
    destruct (decide (k = id)) as [->|Hne].
    + rewrite lookup_insert_eq in H. injection H as <-.
      right. exists v. split; [left|reflexivity].
    + rewrite lookup_insert_ne in H by exact Hne. left. exact H.
  - right. exists lines. split; [right; exact Hin|reflexivity].
Qed.

(** No sequence of the parsed collection holds a line feed: on the
    sequences of the record store the spacers of the motif accept every
    symbol there is. *)
Lemma parse_text_line_feed text id sequence :
  parse_text text !! id = Some sequence -> LF ∉ sequence.
Proof.
  rewrite parse_text_records. unfold collect. intros H.
  apply foldl_enter_lookup in H as [H|(lines & Hin & ->)].
  { rewrite lookup_empty in H. discriminate. }
  unfold records in Hin. apply list_elem_of_filter in Hin as [_ Hin].
  unfold blocks in Hin.
  destruct (group_lines (significant text)) as [_ Hg].
  pose proof (significant_line_feed text) as Hs. rewrite Forall_forall in Hs.
  rewrite list_elem_of_In, in_concat. intros (line & Hl & Hx).
  apply (Hs line); [|apply list_elem_of_In, Hx].
  apply (Hg _ line Hin). simpl. apply list_elem_of_In, Hl.
Qed.

(** *** The identifier of a header *)

Lemma split_first sep s :
  exists w ws, split sep s = w :: ws /\ (sep ∉ w) /\
    (s = w \/ exists rest, s = w ++ sep :: rest).
Proof.
  induction s as [|c s (w & ws & E & Hn & Hs)]; simpl.
  - exists [], []. split; [reflexivity|]. split; [apply not_elem_of_nil|auto].
  - destruct (Ascii.eqb_spec c sep) as [->|Hc].
    + exists [], (split sep s). split; [reflexivity|].
      split; [apply not_elem_of_nil|]. right. exists s. reflexivity.
    + rewrite E. exists (c :: w), ws. split; [reflexivity|].
      split; [rewrite not_elem_of_cons; split; [congruence|exact Hn]|].
      destruct Hs as [->|[rest ->]]; [left; reflexivity|].
      right. exists rest. reflexivity.
Qed.

Lemma header_id_spec rest :
  (" " ∉ header_id (">" :: rest)) /\
  (rest = header_id (">" :: rest)
   \/ exists description, rest = header_id (">" :: rest) ++ " " :: description).
Proof.
  unfold header_id. cbn [tail].
  destruct (split_first " " rest) as (w & ws & -> & Hn & Hs). auto.
Qed.

Lemma split_up_to_whitespace rest :
  (forall c, c ∈ rest -> isspace c = true -> c = " ") ->
  exists ws, split " " rest = up_to_whitespace rest :: ws.
Proof.
  induction rest as [|c rest IH]; intros H; simpl.
  - exists []. reflexivity.
  - destruct (Ascii.eqb_spec c " ") as [->|Hc].
    + change (isspace " ") with true. cbn iota. eexists. reflexivity.
    + destruct (isspace c) eqn:Hs.
      { exfalso. apply Hc, H; [apply list_elem_of_here|exact Hs]. }
      destruct IH as [ws E].
      { intros x Hx. apply H, list_elem_of_further, Hx. }
      rewrite E. eexists. reflexivity.
Qed.

Lemma header_id_up_to_whitespace rest :
  (forall c, c ∈ rest -> isspace c = true -> c = " ") ->
  header_id (">" :: rest) = up_to_whitespace rest.
Proof.
  intros H. unfold header_id. cbn [tail].
  destruct (split_up_to_whitespace rest H) as [ws ->]. reflexivity.
Qed.

(** *** The cysteine counter *)

Lemma foldl_select_step acc records :
  foldl select_step acc records
  = acc ++ filter (fun r => count "C" (record_seq r) = 8) records.
Proof.
  revert acc. induction records as [|r records IH]; intros acc; simpl.
  - rewrite app_nil_r. reflexivity.
  - rewrite IH, filter_cons. unfold select_step.
    destruct (Nat.eqb_spec (count "C" (record_seq r)) 8) as [E|E].
    + rewrite decide_True by exact E. rewrite <- app_assoc. reflexivity.
    + rewrite decide_False by exact E. reflexivity.
Qed.

End RecordStore.

(** ** Statements *)

Section Statements.
Import Re ReSpec FastaSpec.

Local Abbreviation motif := eight_cysteine_motif_regex.

(** C1: the pattern text compiles to a cysteine, a spacer of 2 to 70, a
    cysteine, a spacer of 2 to 70, two adjacent cysteines, a spacer of 2
    to 70, a cysteine, a spacer of 0 to 70, a cysteine, a spacer of 2 to
    70, a cysteine, a spacer of 2 to 70, a cysteine.  Every sequence of
    the record store is a residue string.  What the matcher accepts at
    the start of a string is a residue string of that shape, with the
    capital letter C at the cysteine positions and any symbols, C
    included, in the spacers; and it accepts a match wherever a residue
    string of that shape starts, in particular wherever one starts in a
    sequence of the record store.  Lower-case letters are not
    cysteines, a spacer may consist of cysteines, the fourth spacer may
    be empty, and the other spacers may not have fewer than 2 or any
    spacer more than 70 symbols. *)
Theorem C1_motif_pattern :
  compile eight_cysteine_motif_source = Some motif /\
  (forall text id sequence,
     parse_text text !! id = Some sequence -> residue_string sequence) /\
  (forall s rest, match_at motif s = Some rest ->
     exists m, s = m ++ rest /\ residue_string m /\ motif_shape spacer_any m) /\
  (forall m rest, residue_string m -> motif_shape spacer_any m ->
     is_Some (match_at motif (m ++ rest))) /\
  (forall text id sequence pre m post,
     parse_text text !! id = Some sequence -> sequence = pre ++ m ++ post ->
     motif_shape spacer_any m -> is_Some (match_at motif (m ++ post))) /\
  match_at motif (py "caacaaccaaccaacaac") = None /\
  is_Some (match_at motif (py "CCCCCCCCCCCCCCCCCC")) /\
  match_at motif minimal_motif = Some [] /\
  match_at motif (py "CACAACCAACCAACAACA") = None /\
  match_at motif ("C" :: replicate 71 "A" ++ py "CAACCAACCAACAAC") = None.
Proof.
  split; [vm_compute; reflexivity|].
  split; [|split; [|split; [|split; [|split; [|split; [|split; [|split]]]]]]].
  - intros text id sequence. apply parse_text_line_feed.
  - intros s rest (m & G)%match_at_Some. exists m.
    split; [apply G|].
    assert (Hm : motif_shape spacer m).
    { apply matches_motif. eapply greedy_match_matches, G. }
    pose proof (motif_shape_residues m Hm) as Hr.
    split; [exact Hr|]. apply motif_shape_line_feed; assumption.
  - intros m rest Hr Hm. apply match_at_complete, matches_motif.
    apply motif_shape_line_feed; assumption.
  - intros text id sequence pre m post Hs%parse_text_line_feed -> Hm.
    assert (Hr : LF ∉ m) by (rewrite !not_elem_of_app in Hs; tauto).
    apply match_at_complete, matches_motif.
    apply motif_shape_line_feed; assumption.
  - vm_compute. reflexivity.
  - vm_compute. eexists; reflexivity.
  - vm_compute. reflexivity.
  - vm_compute. reflexivity.
  - vm_compute. reflexivity.
Qed.

(** C2: the counter is total, and its value is the number of matches of
    the left-to-right scan in which, at every position, either no match
    starts and the scan moves one symbol on, or the greedy match (the one
    with the longest first spacer, then the longest second spacer, and so
    on) is taken and the scan goes on right after its end.  A string
    shorter than the shortest motif, the empty one included, counts 0. *)
Theorem C2_motif_count_scan (s : str) :
  scan motif s (findall motif s) /\
  (forall ms, scan motif s ms -> motif_count s = length ms) /\
  (length s < 18 -> motif_count s = 0) /\
  motif_count [] = 0.
Proof.
  split; [apply findall_scan|]. split; [|split; [|reflexivity]].
  - intros ms Hms. unfold motif_count.
    f_equal. eapply scan_unique; [apply findall_scan|exact Hms].
  - intros L.
    pose proof (scan_measure length (@length_app _) motif 18 s _
                  motif_nonempty matches_motif_length (findall_scan motif s)).
    unfold motif_count. lia.
Qed.

(** C3: from a text that is read to its end, the parse returns, without
    raising, the collection of exactly the blocks that have a non-empty
    identifier and at least one non-blank sequence line; the lines before
    the first header are in no block.  The empty text, a text of headers
    only and a text without a header give the empty collection. *)
Theorem C3_parse_emits_records (text : str) :
  parse_fasta (Opens text None) = Returns (collect (records text)) /\
  (forall id, is_Some (collect (records text) !! id) <->
     exists lines, (id, lines) ∈ blocks text /\ id <> [] /\ lines <> []) /\
  (Forall (fun line => startswith ">" line = true) (significant text) ->
     parse_fasta (Opens text None) = Returns ∅) /\
  (Forall (fun line => startswith ">" line = false) (significant text) ->
     parse_fasta (Opens text None) = Returns ∅) /\
  parse_fasta (Opens [] None) = Returns ∅.
Proof.
  assert (E : parse_fasta (Opens text None) = Returns (collect (records text))).
  { unfold parse_fasta, parse_body. rewrite parse_text_records. reflexivity. }
  split; [exact E|]. split; [|split; [|split]].
  - intros id. unfold collect. rewrite foldl_enter_is_Some.
    rewrite lookup_empty. unfold records. split.
    + intros [[? [=]]|Hin].
      apply list_elem_of_fmap_1 in Hin as ([k lines] & -> & Hin).
      apply list_elem_of_filter in Hin as [[H1 H2] Hin].
      exists lines. auto.
    + intros (lines & Hin & H1 & H2). right.
      apply (list_elem_of_fmap_2' fst _ (id, lines)); [|reflexivity].
      apply list_elem_of_filter. split; [split; assumption|exact Hin].
  - intros H. rewrite E. unfold records, blocks.
    destruct (group_headers_only _ H) as [_ H2].
    rewrite filter_is_record_nil by exact H2. reflexivity.
  - intros H. rewrite E. unfold records, blocks.
    rewrite group_no_header by exact H. reflexivity.
  - reflexivity.
Qed.

(** C4: the result of the motif pipeline holds an identifier exactly when
    the record of that identifier counts two motifs or more, and holds
    for it that count. *)
Theorem C4_detect_reports_exact_count (proteins_data : gmap str str)
    (id : str) (n : nat) :
  detect_two_or_more_8cm_motifs proteins_data !! id = Some n <->
  exists sequence, proteins_data !! id = Some sequence /\
    motif_count sequence = n /\ 2 <= n.
Proof.
  unfold detect_two_or_more_8cm_motifs. revert id n.
  apply (map_fold_weak_ind
           (fun (found : gmap str nat) (d : gmap str str) =>
              forall id n, found !! id = Some n <->
                exists sequence, d !! id = Some sequence /\
                  motif_count sequence = n /\ 2 <= n)).
  - intros id n. rewrite lookup_empty. split; [discriminate|].
    intros (? & H & _). rewrite lookup_empty in H. discriminate.
  - intros k sequence d found Hk IH id n. unfold detect_step.
    destruct (Nat.leb_spec 2 (motif_count sequence)) as [Hge|Hlt].
    + destruct (decide (k = id)) as [->|Hne].
      * rewrite lookup_insert_eq. split.
        -- intros [= <-]. exists sequence. rewrite lookup_insert_eq. auto.
        -- intros (sq & H & <- & _). rewrite lookup_insert_eq in H.
           congruence.
      * rewrite lookup_insert_ne, IH by exact Hne.
        split; intros (sq & H & ?); exists sq;
          [rewrite lookup_insert_ne|rewrite lookup_insert_ne in H]; auto.
    + rewrite IH. destruct (decide (k = id)) as [->|Hne].
      * split.
        -- intros (sq & H & _). congruence.
        -- intros (sq & H & <- & ?). rewrite lookup_insert_eq in H.
           injection H as <-. lia.
      * split; intros (sq & H & ?); exists sq;
          [rewrite lookup_insert_ne|rewrite lookup_insert_ne in H]; auto.
Qed.

(** C5: when the file cannot be opened, or reading it fails, the parse
    returns the empty collection; whatever the source, the parse returns
    and raises nothing. *)
Theorem C5_parse_fails_soft :
  (forall e, parse_fasta (CannotOpen e) = Returns ∅) /\
  (forall text e, parse_fasta (Opens text (Some e)) = Returns ∅) /\
  (forall src, exists proteins, parse_fasta src = Returns proteins).
Proof.
  split; [intros []; reflexivity|]. split; [intros text []; reflexivity|].
  intros [[]|text [[]|]]; eexists; reflexivity.
Qed.

(** C6: the loop cuts the header at its first space character, and at
    no other whitespace character.  At the header [>P1<TAB>desc] the
    identifier of the specification is [P1]; the loop keeps
    [P1<TAB>desc], description included, and the record is stored under
    that key and not found under [P1].  On a header whose only
    whitespace characters are spaces, the loop keeps the identifier of
    the specification. *)
Theorem C6_tab_keeps_description :
  isspace TAB = true /\
  up_to_whitespace (py "P1" ++ [TAB] ++ py "desc") = py "P1" /\
  current_protein_id (step initial (py ">P1" ++ [TAB] ++ py "desc" ++ [LF]))
  = Some (py "P1" ++ [TAB] ++ py "desc") /\
  parse_text tab_header_text !! py "P1" = None /\
  parse_text tab_header_text !! (py "P1" ++ [TAB] ++ py "desc")
  = Some (py "ACGT") /\
  (forall st raw rest,
     strip raw = ">" :: rest ->
     exists id, current_protein_id (step st raw) = Some id /\
       (" " ∉ id) /\
       (rest = id \/ exists description, rest = id ++ " " :: description)) /\
  (forall st raw rest,
     strip raw = ">" :: rest ->
     (forall c, c ∈ rest -> isspace c = true -> c = " ") ->
     current_protein_id (step st raw) = Some (up_to_whitespace rest)).
Proof.
  split; [vm_compute; reflexivity|].
  split; [vm_compute; reflexivity|].
  split; [vm_compute; reflexivity|].
  split; [vm_compute; reflexivity|].
  split; [vm_compute; reflexivity|].
  split.
  - intros st raw rest E. exists (header_id (">" :: rest)).
    split; [|apply header_id_spec].
    unfold step. rewrite E. reflexivity.
  - intros st raw rest E H. unfold step. rewrite E.
    cbn [process startswith Ascii.eqb Bool.eqb current_protein_id].
    rewrite (header_id_up_to_whitespace rest H). reflexivity.
Qed.

(** C7, as the specification words it, fails: the shortest motif holds
    its eight cysteines and no other, yet two copies of it side by side
    count as one match, since the greedy spacers of the first match run
    over the boundary into the second copy. *)
Lemma C7_greedy_match_straddles :
  contains motif minimal_motif /\ count "C" minimal_motif = 8 /\
  finditer motif (minimal_motif ++ minimal_motif)
  = [(0, minimal_motif ++ minimal_motif)] /\
  motif_count (minimal_motif ++ minimal_motif) = 1.
Proof.
  split; [|split; [|split]]; try (vm_compute; reflexivity).
  exists [], minimal_motif, []. split; [reflexivity|].
  apply match_at_whole. vm_compute. reflexivity.
Qed.

(** C7, amended: when [s1] and [s2] each contain a motif and no match
    reported in [s1 ++ s2] starts in [s1] and ends beyond it, the count of
    [s1 ++ s2] is at least 2. *)
Theorem C7_concatenation_count (s1 s2 : str) :
  contains motif s1 -> contains motif s2 ->
  (forall i m, (i, m) ∈ finditer motif (s1 ++ s2) ->
     i < length s1 -> i + length m <= length s1) ->
  2 <= motif_count (s1 ++ s2).
Proof.
  intros H1 H2 Hsp. rewrite motif_count_finditer.
  apply finditer_boundary; auto using motif_nonempty.
Qed.

(** The shortest motif, then 71 other residues, then the shortest motif
    again: no spacer reaches from one motif into the other. *)
Lemma C7_concatenation_count_witness :
  contains motif (minimal_motif ++ replicate 71 "K") /\
  contains motif minimal_motif /\
  2 <= motif_count ((minimal_motif ++ replicate 71 "K") ++ minimal_motif).
Proof.
  assert (Hm : matches motif minimal_motif).
  { apply match_at_whole. vm_compute. reflexivity. }
  assert (H1 : contains motif (minimal_motif ++ replicate 71 "K")).
  { exists [], minimal_motif, (replicate 71 "K"). split; [reflexivity|exact Hm]. }
  assert (H2 : contains motif minimal_motif).
  { exists [], minimal_motif, []. split; [reflexivity|exact Hm]. }
  split; [exact H1|]. split; [exact H2|].
  apply (C7_concatenation_count _ _ H1 H2).
  assert (E : finditer motif ((minimal_motif ++ replicate 71 "K") ++ minimal_motif)
              = [(0, minimal_motif); (89, minimal_motif)])
    by (vm_compute; reflexivity).
  intros i m Hin Hi. rewrite E in Hin.
  rewrite !elem_of_cons, elem_of_nil in Hin.
  destruct Hin as [[= -> ->]|[[= -> ->]|[]]]; vm_compute in Hi |- *; lia.
Defined.

(** C8: an identifier is mapped to the sequence of the last record that
    has it, whatever records had it earlier in the text. *)
Theorem C8_last_record_wins (text id : str) (lines : list str)
    (earlier later : list (str * list str)) :
  records text = earlier ++ (id, lines) :: later ->
  id ∉ later.*1 ->
  exists proteins, parse_fasta (Opens text None) = Returns proteins /\
    proteins !! id = Some (concat lines).
Proof.
  intros E Hn. exists (parse_text text). split; [reflexivity|].
  rewrite parse_text_records, E. apply foldl_enter_last, Hn.
Qed.

(** In [duplicate_text] the second record under [A] is the one kept. *)
Lemma C8_last_record_wins_witness :
  records duplicate_text
  = [(py "A", [py "SEQ"; py "ONE"]); (py "B", [py "XX"])]
    ++ (py "A", [py "TWO"]) :: [] /\
  (py "A" ∉ ([] : list (str * list str)).*1) /\
  exists proteins,
    parse_fasta (Opens duplicate_text None) = Returns proteins /\
    proteins !! py "A" = Some (concat [py "TWO"]).
Proof.
  split; [vm_compute; reflexivity|].
  split; [apply not_elem_of_nil|].
  apply (C8_last_record_wins duplicate_text (py "A") [py "TWO"]
           [(py "A", [py "SEQ"; py "ONE"]); (py "B", [py "XX"])] []).
  - vm_compute. reflexivity.
  - apply not_elem_of_nil.
Defined.

(** C9: the records kept by the cysteine-count pipeline are, in their
    order, exactly the records whose sequence holds the capital letter C
    eight times; a record with seven or nine is left out, the letter c is
    not counted, and a sequence without any motif is kept when its count
    is eight. *)
Theorem C9_exactly_eight_cysteines (records : list SeqRecord)
    (r : SeqRecord) :
  (r ∈ eight_cysteine_proteins records <->
     r ∈ records /\ count "C" (record_seq r) = 8) /\
  eight_cysteine_proteins records
  = filter (fun r => count "C" (record_seq r) = 8) records /\
  (forall id d,
     eight_cysteine_proteins
       [ {| record_id := id; record_description := d;
            record_seq := py "ACACACACACACACAC" |};
         {| record_id := id; record_description := d;
            record_seq := py "ACACACACACACACA" |};
         {| record_id := id; record_description := d;
            record_seq := py "ACACACACACACACACC" |};
         {| record_id := id; record_description := d;
            record_seq := py "acacacacacacacac" |};
         {| record_id := id; record_description := d;
            record_seq := py "CCCCCCCC" |} ]
     = [ {| record_id := id; record_description := d;
            record_seq := py "ACACACACACACACAC" |};
         {| record_id := id; record_description := d;
            record_seq := py "CCCCCCCC" |} ]) /\
  (forall output_fasta_file write written,
     extract_proteins_with_eight_cysteines (Returns records)
       output_fasta_file write
     = Returns (Some written) ->
     written = filter (fun r => count "C" (record_seq r) = 8) records) /\
  motif_count (py "CCCCCCCC") = 0.
Proof.
  assert (E : eight_cysteine_proteins records
              = filter (fun r => count "C" (record_seq r) = 8) records).
  { unfold eight_cysteine_proteins. apply foldl_select_step. }
  split; [|split; [exact E|split; [|split]]].
  - rewrite E, list_elem_of_filter. tauto.
  - intros id d. reflexivity.
  - intros output_fasta_file write written.
    unfold extract_proteins_with_eight_cysteines. rewrite <- E.
    destruct (eight_cysteine_proteins records) as [|r0 selected];
      [discriminate|].
    destruct (write output_fasta_file (r0 :: selected)); congruence.
  - vm_compute. reflexivity.
Qed.

(** C10: the count is at most an eighth of the number of [C] in the
    string; with fewer than eight [C] it is 0. *)
Theorem C10_motif_count_bound (s : str) :
  motif_count s <= count "C" s / 8 /\
  (count "C" s < 8 -> motif_count s = 0).
Proof.
  pose proof (scan_measure (count "C") (count_app "C") motif 8 s _
                motif_nonempty matches_motif_cysteines (findall_scan motif s))
    as H.
  fold (motif_count s) in H. split.
  - apply Nat.div_le_lower_bound; lia.
  - lia.
Qed.

End Statements.

(** ** Further properties of the record store *)

Section RecordStoreFacts.
Import FastaSpec.

(** *** Trimmed lines *)

Lemma lstrip_head s c t : lstrip s = c :: t -> isspace c = false.
Proof.
  induction s as [|x s IH]; simpl; [discriminate|].
  destruct (isspace x) eqn:E; [exact IH|]. intros [= <- _]. exact E.
Qed.

Lemma rstrip_last s c : last (rstrip s) = Some c -> isspace c = false.
Proof.
  unfold rstrip. rewrite last_reverse.
  destruct (lstrip (reverse s)) as [|x t] eqn:E; simpl; [discriminate|].
  intros [= <-]. eapply lstrip_head, E.
Qed.

Lemma rstrip_cons_keep c t : isspace c = false -> head (rstrip (c :: t)) = Some c.
Proof.
  intros Hc. unfold rstrip. rewrite reverse_cons, lstrip_snoc.
  destruct (lstrip (reverse t)) as [|x u].
  - simpl. rewrite Hc. reflexivity.
  - rewrite head_reverse. apply last_snoc.
Qed.

Lemma strip_head s c : head (strip s) = Some c -> isspace c = false.
Proof.
  unfold strip. destruct (lstrip s) as [|x t] eqn:E; [discriminate|].
  pose proof (lstrip_head _ _ _ E) as Hx.
  rewrite (rstrip_cons_keep _ _ Hx). intros [= <-]. exact Hx.
Qed.

Lemma readlines_from_carriage_return n text cur :
  length text <= n -> CR ∉ cur ->
  Forall (fun line => CR ∉ line) (readlines_from cur text).
Proof.
  revert text cur. induction n as [|n IH]; intros text cur Hn Hcur.
  - destruct text; [|simpl in Hn; lia].
    simpl. destruct cur as [|x cur]; constructor; [|constructor].
    rewrite elem_of_reverse. exact Hcur.
  - assert (Hline : CR ∉ reverse (LF :: cur)).
    { rewrite elem_of_reverse, not_elem_of_cons. split; [discriminate|exact Hcur]. }
    assert (Hnil : CR ∉ ([] : str)) by apply not_elem_of_nil.
    destruct text as [|c text]; simpl in *.
    { destruct cur as [|x cur]; constructor; [|constructor].
      rewrite elem_of_reverse. exact Hcur. }
    destruct (Ascii.eqb_spec c LF) as [->|Hlf].
    + constructor; [exact Hline|]. apply IH; [lia|exact Hnil].
    + destruct (Ascii.eqb_spec c CR) as [->|Hcr].
      * destruct text as [|c' text']; [constructor; auto|].
        simpl in Hn.
        destruct (Ascii.eqb c' LF); (constructor; [exact Hline|]);
          apply IH; simpl; auto; lia.
      * apply IH; [lia|].
        rewrite not_elem_of_cons. split; [congruence|exact Hcur].
Qed.

(** The significant lines are trimmed. *)
Lemma significant_trimmed text : Forall trimmed (significant text).
Proof.
  pose proof (significant_line_feed text) as Hlf.
  rewrite Forall_forall in Hlf |- *. intros line Hin.
  specialize (Hlf line Hin). unfold significant in Hin.
  apply list_elem_of_filter in Hin as [Hne Hin].
  apply list_elem_of_fmap_1 in Hin as (raw & -> & Hin).
  split; [exact Hne|]. split; [exact Hlf|]. split; [|split].
  - intros H%strip_elem.
    pose proof (readlines_from_carriage_return (length text) text [] (le_n _)
                  (not_elem_of_nil _)) as Hcr.
    rewrite Forall_forall in Hcr. exact (Hcr raw Hin H).
  - apply strip_head.
  - unfold strip. apply rstrip_last.
Qed.

Lemma concat_trimmed lines :
  lines <> [] -> Forall trimmed lines -> trimmed (concat lines).
Proof.
  intros Hne Hall.
  assert (Hin : forall x, x ∈ concat lines -> exists l, l ∈ lines /\ x ∈ l).
  { intros x. rewrite list_elem_of_In, in_concat. intros (l & Hl & Hx).
    exists l. rewrite !list_elem_of_In. auto. }
  rewrite Forall_forall in Hall.
  split; [|split; [|split; [|split]]].
  - destruct lines as [|l lines]; [congruence|].
    destruct (Hall l (list_elem_of_here _ _)) as (Hl & _).
    simpl. destruct l; [congruence|discriminate].
  - intros (l & Hl & Hx)%Hin. destruct (Hall l Hl) as (_ & H & _). auto.
  - intros (l & Hl & Hx)%Hin. destruct (Hall l Hl) as (_ & _ & H & _). auto.
  - destruct lines as [|l lines]; [congruence|].
    destruct (Hall l (list_elem_of_here _ _)) as (Hl & _ & _ & Hh & _).
    simpl. destruct l as [|x l]; [congruence|]. exact Hh.
  - clear Hin Hne. induction lines as [|l lines IH] using rev_ind.
    + discriminate.
    + rewrite concat_app. simpl. rewrite app_nil_r.
      destruct (Hall l) as (Hl & _ & _ & _ & Ht).
      { apply elem_of_app. right. left. }
      intros c. rewrite last_app.
      destruct (last l) eqn:E; [apply Ht|].
      destruct l using rev_ind; [congruence|].
      rewrite last_snoc in E. discriminate.
Qed.

(** *** Where an entry of the collection comes from *)

Lemma group_headers lines :
  forall b, b ∈ (group lines).2 ->
    exists line, line ∈ lines /\ startswith ">" line = true /\
      b.1 = header_id line.
Proof.
  induction lines as [|l lines IH]; simpl.
  - intros b H. apply elem_of_nil in H. contradiction.
  - destruct (group lines) as [body bs]. simpl in *.
    destruct (startswith ">" l) eqn:E; simpl.
    + intros b [->|Hb]%elem_of_cons.
      * exists l. split; [left|auto].
      * destruct (IH b Hb) as (line & ? & ? & ?). exists line.
        split; [right|]; auto.
    + intros b Hb. destruct (IH b Hb) as (line & ? & ? & ?). exists line.
      split; [right|]; auto.
Qed.

Lemma parse_text_lookup text id sequence :
  parse_text text !! id = Some sequence ->
  exists lines, (id, lines) ∈ blocks text /\ id <> [] /\ lines <> [] /\
    sequence = concat lines.
Proof.
  rewrite parse_text_records. unfold collect. intros H.
  apply foldl_enter_lookup in H as [H|(lines & Hin & ->)].
  { rewrite lookup_empty in H. discriminate. }
  unfold records in Hin. apply list_elem_of_filter in Hin as [[H1 H2] Hin].
  exists lines. auto.
Qed.

Lemma header_id_elem x line : x ∈ header_id line -> x ∈ line.
Proof.
  unfold header_id. destruct line as [|c rest]; simpl.
  - intros H. apply elem_of_nil in H. contradiction.
  - destruct (split_first " " rest) as (w & ws & -> & _ & [->|[d ->]]);
      intros H; right; [exact H|].
    apply elem_of_app. left. exact H.
Qed.

Lemma header_id_no_space line : " " ∉ header_id line.
Proof.
  unfold header_id.
  destruct (split_first " " (tail line)) as (w & ws & -> & Hn & _). exact Hn.
Qed.

(** *** Lines of a text put together from two *)

Lemma readlines_from_app n t1 t2 cur :
  length t1 <= n ->
  readlines_from cur (t1 ++ LF :: t2)
  = readlines_from cur (t1 ++ [LF]) ++ readlines_from [] t2.
Proof.
  revert t1 cur. induction n as [|n IH]; intros t1 cur Hn.
  - destruct t1; [|simpl in Hn; lia]. reflexivity.
  - destruct t1 as [|c t1]; [reflexivity|]. simpl in Hn. cbn [app readlines_from].
    destruct (Ascii.eqb c LF).
    + cbn [app]. f_equal. apply IH. lia.
    + destruct (Ascii.eqb c CR).
      * destruct t1 as [|c' t1']; [reflexivity|]. simpl in Hn. cbn [app].
        destruct (Ascii.eqb c' LF); cbn [app]; f_equal.
        -- apply IH. lia.
        -- apply (IH (c' :: t1')). simpl. lia.
      * apply IH. lia.
Qed.

Lemma readlines_app before after :
  before = [] \/ (exists b, before = b ++ [LF]) ->
  readlines (before ++ after) = readlines before ++ readlines after.
Proof.
  intros [->|[b ->]]; [reflexivity|]. unfold readlines.
  rewrite <- app_assoc. cbn [app]. apply (readlines_from_app (length b)). lia.
Qed.

(** The characters of a line are characters of the text, or the line
    feed put at its end. *)
Lemma readlines_from_elem n text cur :
  length text <= n ->
  Forall (fun line => forall x, x ∈ line -> x = LF \/ x ∈ cur \/ x ∈ text)
    (readlines_from cur text).
Proof.
  revert text cur. induction n as [|n IH]; intros text cur Hn.
  - destruct text; [|simpl in Hn; lia].
    simpl. destruct cur as [|y cur]; constructor; [|constructor].
    intros x. rewrite elem_of_reverse. auto.
  - assert (Hline : forall (rest : str) x, x ∈ reverse (LF :: cur) ->
                      x = LF \/ x ∈ cur \/ x ∈ rest).
    { intros rest x. rewrite elem_of_reverse, elem_of_cons. tauto. }
    destruct text as [|c text]; simpl in *.
    { destruct cur as [|y cur]; constructor; [|constructor].
      intros x. rewrite elem_of_reverse. auto. }
    assert (Hrest : forall text' : str, length text' <= n ->
              (forall x, x ∈ text' -> x ∈ c :: text) ->
              Forall (fun line => forall x, x ∈ line ->
                        x = LF \/ x ∈ cur \/ x ∈ c :: text)
                (readlines_from [] text')).
    { intros text' Hl Hsub. eapply Forall_impl; [apply (IH text' []), Hl|].
      simpl. intros line H x Hx. destruct (H x Hx) as [?|[Hc|?]]; auto.
      apply elem_of_nil in Hc. contradiction. }
    destruct (Ascii.eqb c LF).
    + constructor; [apply Hline|]. apply Hrest; [lia|]. intros x Hx. right. exact Hx.
    + destruct (Ascii.eqb c CR).
      * destruct text as [|c' text']; [constructor; [apply Hline|constructor]|].
        simpl in Hn.
        destruct (Ascii.eqb c' LF); (constructor; [apply Hline|]);
          apply Hrest; simpl; try lia.
        -- intros x Hx. right. right. exact Hx.
        -- intros x Hx. right. exact Hx.
      * eapply Forall_impl; [apply (IH text (c :: cur)); lia|].
        simpl. intros line H x Hx.
        destruct (H x Hx) as [?|[[->|?]%elem_of_cons|?]]; auto.
        -- right. right. left.
        -- right. right. right. assumption.
Qed.

Lemma lstrip_spaces s : Forall (fun c => isspace c = true) s -> lstrip s = [].
Proof. induction 1 as [|c s H _ IH]; simpl; [reflexivity|]. rewrite H. exact IH. Qed.

(** A text of whitespace only has blank lines only, which the loop
    skips. *)
Lemma foldl_step_blank st blank :
  Forall (fun c => isspace c = true) blank ->
  foldl step st (readlines blank) = st.
Proof.
  intros Hb.
  pose proof (readlines_from_elem (length blank) blank [] (le_n _)) as H.
  fold (readlines blank) in H. induction H as [|line lines Hl _ IH]; [reflexivity|].
  cbn [foldl]. unfold step at 2. unfold strip.
  rewrite lstrip_spaces; [exact IH|].
  rewrite Forall_forall in Hb |- *. intros x Hx.
  destruct (Hl x Hx) as [->|[Hc|Hc]]; [reflexivity| |auto].
  apply elem_of_nil in Hc. contradiction.
Qed.

(** *** Line ends written as carriage return and line feed *)

Lemma foldl_step_crlf n text cur st :
  length text <= n ->
  foldl step st (readlines_from cur (crlf text))
  = foldl step st (readlines_from cur text).
Proof.
  revert text cur st. induction n as [|n IH]; intros text cur st Hn.
  - destruct text; [|simpl in Hn; lia]. reflexivity.
  - destruct text as [|c text]; [reflexivity|]. simpl in Hn.
    cbn [crlf]. destruct (Ascii.eqb_spec c LF) as [->|Hlf].
    + cbn [readlines_from]. change (Ascii.eqb CR LF) with false.
      change (Ascii.eqb CR CR) with true. change (Ascii.eqb LF LF) with true.
      cbn [foldl]. apply IH. lia.
    + cbn [readlines_from]. rewrite (proj2 (Ascii.eqb_neq c LF) Hlf).
      destruct (Ascii.eqb c CR).
      * destruct text as [|c' text']; [reflexivity|]. simpl in Hn.
        cbn [crlf]. destruct (Ascii.eqb_spec c' LF) as [->|Hlf'].
        -- change (Ascii.eqb CR LF) with false. cbn [foldl readlines_from].
           change (Ascii.eqb CR LF) with false.
           change (Ascii.eqb CR CR) with true. change (Ascii.eqb LF LF) with true.
           cbn [foldl]. rewrite IH by lia. reflexivity.
        -- rewrite (proj2 (Ascii.eqb_neq c' LF) Hlf'). cbn [foldl].
           rewrite <- (IH (c' :: text')) by (simpl; lia).
           cbn [crlf]. rewrite (proj2 (Ascii.eqb_neq c' LF) Hlf'). reflexivity.
      * apply IH. lia.
Qed.

(** *** The number of records *)

Lemma dom_foldl_enter d rs :
  dom (foldl enter d rs) = dom d ∪ list_to_set rs.*1.
Proof.
  revert d. induction rs as [|[k v] rs IH]; intros d.
  - simpl. rewrite (right_id_L ∅ (∪)). reflexivity.
  - cbn [foldl]. rewrite IH. unfold enter. rewrite dom_insert_L.
    rewrite fmap_cons. cbn [list_to_set fst].
    rewrite (comm_L (∪) {[k]} (dom d)), (assoc_L (∪)). reflexivity.
Qed.

Lemma group_length lines :
  length (group lines).2
  = length (filter (fun line => startswith ">" line = true) lines).
Proof.
  induction lines as [|l lines IH]; [reflexivity|]. cbn [group].
  destruct (group lines) as [body bs]. rewrite filter_cons.
  destruct (decide (startswith ">" l = true)) as [E|E].
  - rewrite E. simpl in *. lia.
  - apply not_true_is_false in E. rewrite E. exact IH.
Qed.

Lemma length_remove_dups (l : list str) : length (remove_dups l) <= length l.
Proof.
  induction l as [|x l IH]; simpl; [lia|].
  destruct (decide_rel elem_of x l); simpl; lia.
Qed.

(** *** Two texts one after the other *)

Lemma group_app l1 l2 :
  (group l2).1 = [] ->
  group (l1 ++ l2) = ((group l1).1, (group l1).2 ++ (group l2).2).
Proof.
  intros H2. induction l1 as [|l l1 IH]; simpl.
  - destruct (group l2) as [body bs]. simpl in *. subst body. reflexivity.
  - rewrite IH. destruct (group l1) as [body bs].
    destruct (startswith ">" l); reflexivity.
Qed.

Lemma foldl_enter_union d rs : foldl enter d rs = collect rs ∪ d.
Proof.
  unfold collect. revert d. induction rs as [|[k v] rs IH]; intros d.
  - simpl. rewrite (left_id_L ∅ (∪)). reflexivity.
  - cbn [foldl]. rewrite IH, (IH (enter ∅ (k, v))). unfold enter; simpl.
    rewrite (insert_union_singleton_l d), (insert_union_singleton_l ∅).
    rewrite (right_id_L ∅ (∪)), (assoc_L (∪)). reflexivity.
Qed.

Lemma significant_app before after :
  before = [] \/ (exists b, before = b ++ [LF]) ->
  significant (before ++ after) = significant before ++ significant after.
Proof.
  intros H. unfold significant.
  rewrite (readlines_app _ _ H), fmap_app, filter_app. reflexivity.
Qed.


End RecordStoreFacts.

(** ** Further properties of the scan and of the pipelines *)

Section PipelineFacts.
Import Re ReSpec.

Lemma apart_weaken from from' found :
  from' <= from -> apart from found -> apart from' found.
Proof. destruct found as [|[i m] found]; simpl; [auto|]. intros ? [? ?]. split; [lia|auto]. Qed.

(** Every reported match is the part of the string at its offset and is
    matched by the pattern, and the matches lie one after the other. *)
Lemma finditer_from_spans p fuel pre s :
  Forall (fun x => take (length x.2) (drop x.1 (pre ++ s)) = x.2 /\ matches p x.2)
    (finditer_from fuel p (length pre) s)
  /\ apart (length pre) (finditer_from fuel p (length pre) s).
Proof.
  revert pre s. induction fuel as [|fuel IH]; intros pre s.
  { split; [constructor|exact I]. }
  assert (Hnext : forall c s', s = c :: s' ->
            Forall (fun x => take (length x.2) (drop x.1 (pre ++ s)) = x.2
                             /\ matches p x.2)
              (finditer_from fuel p (S (length pre)) s')
            /\ apart (length pre) (finditer_from fuel p (S (length pre)) s')).
  { intros c s' ->. destruct (IH (pre ++ [c]) s') as [H1 H2].
    rewrite length_app, Nat.add_1_r, <- app_assoc in *. cbn [app] in *.
    split; [exact H1|]. eapply apart_weaken; [|exact H2]. lia. }
  destruct (match_at_cases p s) as [[H N]|[[H G]|(m & rest & -> & Hm & H & G)]].
  - rewrite finditer_from_miss by exact H.
    destruct s as [|c s']; [split; [constructor|exact I]|]. eauto.
  - rewrite finditer_from_hit_empty by exact H.
    assert (Hhere : take (length (@nil ascii))
                      (drop (length pre) (pre ++ s)) = []
                    /\ matches p []).
    { split; [reflexivity|]. eapply greedy_match_matches, G. }
    destruct s as [|c s'].
    + split; [constructor; [exact Hhere|constructor]|]. simpl. auto.
    + destruct (Hnext c s' eq_refl) as [H1 H2].
      split; [constructor; [exact Hhere|exact H1]|].
      simpl. split; [lia|]. rewrite Nat.add_0_r. exact H2.
  - rewrite finditer_from_hit by assumption.
    destruct (IH (pre ++ m) rest) as [H1 H2].
    rewrite length_app, <- app_assoc in *.
    split.
    + constructor; [|exact H1]. cbn [fst snd].
      rewrite drop_app_length, take_app_length.
      split; [reflexivity|]. eapply greedy_match_matches, G.
    + simpl. split; [lia|exact H2].
Qed.

Lemma motif_text_bounds g1 g2 g3 g4 g5 g6 :
  head (motif_text g1 g2 g3 g4 g5 g6) = Some "C"
  /\ last (motif_text g1 g2 g3 g4 g5 g6) = Some "C".
Proof.
  split; [reflexivity|]. unfold motif_text.
  repeat (rewrite ?last_cons, ?last_app; cbn [last]).
  destruct (last g6); reflexivity.
Qed.

(** The detection is the count of each sequence, kept when it is 2 or
    more. *)
Lemma detect_omap proteins_data :
  detect_two_or_more_8cm_motifs proteins_data = omap reported proteins_data.
Proof.
  unfold detect_two_or_more_8cm_motifs.
  apply (map_fold_weak_ind
           (fun (found : gmap str nat) (d : gmap str str) =>
              found = omap reported d)).
  - rewrite omap_empty. reflexivity.
  - intros k sequence d found Hk ->. rewrite omap_insert.
    unfold detect_step, reported.
    destruct (2 <=? motif_count sequence)%nat; [reflexivity|].
    symmetry. apply delete_id. rewrite lookup_omap, Hk. reflexivity.
Qed.

Lemma filter_idemp {A} (P : A -> Prop) `{forall x, Decision (P x)} (l : list A) :
  filter P (filter P l) = filter P l.
Proof.
  induction l as [|x l IH]; [reflexivity|]. rewrite filter_cons.
  destruct (decide (P x)) as [Hx|Hx]; [|exact IH].
  rewrite filter_cons, decide_True by exact Hx. f_equal. exact IH.
Qed.

End PipelineFacts.

(** ** The ordered dictionaries and the output *)

Section RunFacts.
Import FastaSpec.

(** *** Setting an item *)

Lemma setitem_fresh {V} (d : list (str * V)) k v :
  k ∉ d.*1 -> Dict.setitem d k v = d ++ [(k, v)].
Proof.
  induction d as [|[k' v'] d IH]; simpl; [reflexivity|].
  rewrite not_elem_of_cons. intros [Hk Hd].
  rewrite decide_False by congruence. rewrite IH by exact Hd. reflexivity.
Qed.

Lemma setitem_keys {V} (d : list (str * V)) k v :
  (Dict.setitem d k v).*1 = if decide (k ∈ d.*1) then d.*1 else d.*1 ++ [k].
Proof.
  induction d as [|[k' v'] d IH].
  - case_decide as H; [|reflexivity].
    apply elem_of_nil in H. contradiction.
  - cbn [Dict.setitem]. destruct (decide (k' = k)) as [->|Hne].
    + clear IH. case_decide as H; [reflexivity|].
      exfalso. apply H. left.
    + rewrite !fmap_cons, IH. cbn [fst]. clear IH.
      destruct (decide (k ∈ d.*1)) as [Hin|Hin]; case_decide as H;
        try reflexivity.
      * exfalso. apply H. right. exact Hin.
      * apply elem_of_cons in H as [H|H]; [congruence|contradiction].
Qed.

Lemma list_to_map_setitem {V} (d : list (str * V)) k v :
  (list_to_map (Dict.setitem d k v) : gmap str V) = <[k := v]> (list_to_map d).
Proof.
  induction d as [|[k' v'] d IH]; simpl; [reflexivity|].
  destruct (decide (k' = k)) as [->|Hne]; simpl.
  - rewrite insert_insert_eq. reflexivity.
  - rewrite IH. apply insert_insert_ne. exact Hne.
Qed.

(** *** The loop with the ordered dictionary *)

Lemma run_foldl_step_significant raws st :
  foldl Run.step st raws
  = foldl Run.process st (filter (fun line => line <> []) (strip <$> raws)).
Proof.
  revert st. induction raws as [|raw raws IH]; intros st; [reflexivity|].
  rewrite fmap_cons, filter_cons. cbn [foldl]. unfold Run.step at 2.
  destruct (strip raw) as [|c line] eqn:E.
  - rewrite decide_False by auto. apply IH.
  - rewrite decide_True by discriminate. cbn [foldl]. apply IH.
Qed.

Lemma run_store_collected_nil st : Run.store (run_collected st []) = Run.store st.
Proof.
  destruct st as [d id sq]. unfold run_collected, Run.store, Run.complete; simpl.
  rewrite app_nil_r. reflexivity.
Qed.

Lemma run_store_header d id body :
  Run.store {| Run.proteins := d; Run.current_protein_id := Some id;
               Run.current_sequence := body |}
  = if decide (is_record (id, body)) then enter_item d (id, body) else d.
Proof.
  unfold Run.store, Run.complete, is_record, enter_item; simpl.
  destruct (decide _) as [[H1 H2]|Hn];
    destruct id as [|c id], body as [|l body]; simpl in *;
    try congruence; try reflexivity.
  exfalso. apply Hn. split; discriminate.
Qed.

Lemma run_store_foldl_process lines st :
  Run.store (foldl Run.process st lines)
  = foldl enter_item (Run.store (run_collected st (group lines).1))
      (filter is_record (group lines).2).
Proof.
  revert st. induction lines as [|line lines IH]; intros st.
  - simpl. rewrite run_store_collected_nil. reflexivity.
  - cbn [foldl group]. rewrite IH.
    destruct (group lines) as [body bs]. unfold Run.process.
    destruct (startswith ">" line); cbn [fst snd].
    + rewrite run_store_collected_nil, filter_cons.
      unfold run_collected at 1;
        cbn [Run.proteins Run.current_protein_id Run.current_sequence app].
      rewrite run_store_header.
      destruct (decide (is_record (header_id line, body))); reflexivity.
    + f_equal. f_equal. unfold run_collected; simpl.
      rewrite <- app_assoc. reflexivity.
Qed.

(** The ordered dictionary is the records of the text, set one after the
    other. *)
Lemma run_parse_text_records text :
  Run.parse_text text = foldl enter_item [] (records text).
Proof.
  unfold Run.parse_text, readlines, records, blocks, significant.
  rewrite run_foldl_step_significant, run_store_foldl_process. reflexivity.
Qed.

Lemma first_occurrences_snoc ids id :
  first_occurrences (ids ++ [id])
  = if decide (id ∈ first_occurrences ids) then first_occurrences ids
    else first_occurrences ids ++ [id].
Proof.
  unfold first_occurrences. rewrite reverse_app. simpl.
  destruct (decide_rel elem_of id (reverse ids)) as [Hin|Hin].
  - rewrite decide_True; [reflexivity|].
    rewrite elem_of_reverse, elem_of_remove_dups. exact Hin.
  - rewrite decide_False.
    + rewrite reverse_cons. reflexivity.
    + rewrite elem_of_reverse, elem_of_remove_dups. exact Hin.
Qed.

Lemma foldl_enter_item_keys rs :
  (foldl enter_item [] rs).*1 = first_occurrences rs.*1.
Proof.
  induction rs as [|[k v] rs IH] using rev_ind; [reflexivity|].
  rewrite foldl_snoc, fmap_app. change ([(k, v)].*1) with [k].
  rewrite first_occurrences_snoc. unfold enter_item at 1. cbn [fst snd].
  rewrite setitem_keys, IH. reflexivity.
Qed.

Lemma first_occurrences_NoDup ids : NoDup (first_occurrences ids).
Proof.
  unfold first_occurrences. rewrite reverse_Permutation.
  apply NoDup_remove_dups.
Qed.

Lemma list_to_map_foldl_enter_item d rs :
  (list_to_map (foldl enter_item d rs) : gmap str str)
  = foldl enter (list_to_map d) rs.
Proof.
  revert d. induction rs as [|[k v] rs IH]; intros d; [reflexivity|].
  cbn [foldl]. rewrite IH. unfold enter_item, enter. simpl.
  rewrite list_to_map_setitem. reflexivity.
Qed.

Lemma run_parse_text_map text :
  (list_to_map (Run.parse_text text) : gmap str str) = parse_text text.
Proof.
  rewrite run_parse_text_records, list_to_map_foldl_enter_item.
  rewrite parse_text_records. reflexivity.
Qed.

Lemma run_parse_text_NoDup text : NoDup (Run.parse_text text).*1.
Proof.
  rewrite run_parse_text_records, foldl_enter_item_keys.
  apply first_occurrences_NoDup.
Qed.

(** *** The detection on the ordered dictionary *)

Lemma qualifying_cons k sequence d :
  qualifying ((k, sequence) :: d)
  = match reported sequence with
    | Some n => (k, n) :: qualifying d
    | None => qualifying d
    end.
Proof. unfold qualifying. simpl. destruct (reported sequence); reflexivity. Qed.

Lemma qualifying_keys d k : k ∈ (qualifying d).*1 -> k ∈ d.*1.
Proof.
  induction d as [|[k' s] d IH]; [auto|]. rewrite qualifying_cons.
  destruct (reported s); simpl.
  - intros [->|H]%elem_of_cons; [left|right; auto].
  - intros H. right. auto.
Qed.

Lemma run_detect_foldl d printed found :
  NoDup d.*1 -> (forall k, k ∈ d.*1 -> k ∉ found.*1) ->
  foldl Run.detect_step (printed, found) d
  = (printed ++ (found_line <$> qualifying d), found ++ qualifying d).
Proof.
  revert printed found. induction d as [|[k s] d IH]; intros printed found Hd Hf.
  - simpl. rewrite !app_nil_r. reflexivity.
  - rewrite fmap_cons in Hd, Hf. cbn [fst] in Hd, Hf.
    apply NoDup_cons in Hd as [Hk Hd]. cbn [foldl]. rewrite qualifying_cons.
    unfold Run.detect_step at 2. unfold reported.
    destruct (2 <=? motif_count s)%nat.
    + cbn [fst snd]. rewrite IH; [|exact Hd|].
      * rewrite setitem_fresh by (apply Hf; left).
        rewrite fmap_cons, <- !app_assoc. reflexivity.
      * intros k' Hk'. rewrite setitem_fresh by (apply Hf; left).
        rewrite fmap_app, not_elem_of_app. split; [apply Hf; right; exact Hk'|].
        simpl. rewrite not_elem_of_cons. split; [|apply not_elem_of_nil].
        intros ->. contradiction.
    + apply IH; [exact Hd|]. intros k' Hk'. apply Hf. right. exact Hk'.
Qed.

Lemma list_to_map_qualifying d :
  NoDup d.*1 ->
  (list_to_map (qualifying d) : gmap str nat)
  = detect_two_or_more_8cm_motifs (list_to_map d).
Proof.
  rewrite detect_omap. induction d as [|[k s] d IH]; intros Hd.
  - simpl. rewrite omap_empty. reflexivity.
  - rewrite fmap_cons in Hd. cbn [fst] in Hd.
    apply NoDup_cons in Hd as [Hk Hd].
    rewrite qualifying_cons, list_to_map_cons.
    destruct (reported s) as [n|] eqn:E.
    + rewrite list_to_map_cons, (omap_insert_Some _ _ _ _ _ E), IH by exact Hd.
      reflexivity.
    + rewrite (omap_insert_None _ _ _ _ E), IH by exact Hd.
      symmetry. apply delete_id. rewrite lookup_omap.
      rewrite (not_elem_of_list_to_map_1 _ _ Hk). reflexivity.
Qed.

Lemma qualifying_counts d : Forall (fun item => 2 <= item.2) (qualifying d).
Proof.
  induction d as [|[k s] d IH]; [constructor|]. rewrite qualifying_cons.
  unfold reported. destruct (Nat.leb_spec 2 (motif_count s)); [|exact IH].
  constructor; [assumption|exact IH].
Qed.

(** *** What [parse_fasta] and the detection return and print *)

Lemma run_parse_fasta_map file_path src message :
  NoDup (Run.parse_fasta file_path src message).2.*1 /\
  parse_fasta src
  = Returns (list_to_map (Run.parse_fasta file_path src message).2).
Proof.
  destruct src as [[]|text [[]|]]; simpl;
    try (split; [constructor|reflexivity]).
  split; [apply run_parse_text_NoDup|].
  unfold parse_fasta, parse_body. rewrite run_parse_text_map. reflexivity.
Qed.

Lemma run_detect proteins_data :
  NoDup proteins_data.*1 ->
  Run.detect_two_or_more_8cm_motifs proteins_data
  = (Print (py "Searching for proteins with two or more 8CM motifs using pattern: "
            ++ eight_cysteine_motif_source)
       :: (found_line <$> qualifying proteins_data),
     qualifying proteins_data).
Proof.
  intros Hd. unfold Run.detect_two_or_more_8cm_motifs.
  rewrite run_detect_foldl; [reflexivity|exact Hd|].
  intros k _. apply not_elem_of_nil.
Qed.

Lemma qualifying_sublist d : sublist (qualifying d).*1 d.*1.
Proof.
  induction d as [|[k s] d IH]; [constructor|]. rewrite qualifying_cons.
  destruct (reported s); rewrite !fmap_cons; cbn [fst].
  - apply sublist_skip, IH.
  - apply sublist_cons, IH.
Qed.



(** *** Trimming and splitting *)

Lemma lstrip_split s :
  exists lead, s = lead ++ lstrip s /\ Forall (fun c => isspace c = true) lead.
Proof.
  induction s as [|c s (lead & E & H)]; simpl.
  - exists []. split; [reflexivity|constructor].
  - destruct (isspace c) eqn:Hc.
    + exists (c :: lead). split; [simpl; f_equal; exact E|constructor; assumption].
    + exists []. split; [reflexivity|constructor].
Qed.

Lemma rstrip_split s :
  exists trail, s = rstrip s ++ trail /\ Forall (fun c => isspace c = true) trail.
Proof.
  unfold rstrip. destruct (lstrip_split (reverse s)) as (lead & E & H).
  exists (reverse lead). split.
  - rewrite <- reverse_app, <- E, reverse_involutive. reflexivity.
  - apply Forall_reverse, H.
Qed.

Lemma lstrip_id s :
  (forall c, head s = Some c -> isspace c = false) -> lstrip s = s.
Proof.
  destruct s as [|c s]; [reflexivity|]. simpl. intros H.
  rewrite (H c eq_refl). reflexivity.
Qed.

Lemma rstrip_id s :
  (forall c, last s = Some c -> isspace c = false) -> rstrip s = s.
Proof.
  intros H. unfold rstrip. rewrite lstrip_id, reverse_involutive; [reflexivity|].
  intros c. rewrite head_reverse. apply H.
Qed.

Lemma join_cons sep w w' ws :
  join sep (w :: w' :: ws) = w ++ sep :: join sep (w' :: ws).
Proof. reflexivity. Qed.

Lemma split_nonempty sep s : split sep s <> [].
Proof.
  destruct s as [|c s]; simpl; [discriminate|].
  destruct (Ascii.eqb c sep); [discriminate|].
  destruct (split sep s); discriminate.
Qed.

End RunFacts.

(** ** Further statements *)

Section FurtherStatements.
Import Re ReSpec FastaSpec.

(** X1: every sequence of the parsed collection is not empty, holds
    neither a line feed nor a carriage return, and neither begins nor
    ends with a whitespace character. *)
Theorem X1_parsed_sequences_trimmed (src : source) :
  exists proteins, parse_fasta src = Returns proteins /\
    map_Forall (fun _ sequence => trimmed sequence) proteins.
Proof.
  assert (Hempty : map_Forall (fun (_ : str) sequence => trimmed sequence)
                     (∅ : gmap str str)) by apply map_Forall_empty.
  destruct src as [[]|text [[]|]]; try (eexists; split; [reflexivity|exact Hempty]).
  exists (parse_text text). split; [reflexivity|].
  intros id sequence (lines & Hin & _ & Hne & ->)%parse_text_lookup.
  apply concat_trimmed; [exact Hne|].
  pose proof (significant_trimmed text) as Hs.
  rewrite Forall_forall in Hs |- *. intros line Hl. apply Hs.
  destruct (group_lines (significant text)) as [_ Hg].
  apply (Hg _ line Hin Hl).
Qed.

(** X2: every identifier of the parsed collection is not empty and holds
    no space, no line feed and no carriage return. *)
Theorem X2_parsed_identifiers (src : source) :
  exists proteins, parse_fasta src = Returns proteins /\
    map_Forall (fun id _ => identifier id) proteins.
Proof.
  assert (Hempty : map_Forall (fun id (_ : str) => identifier id)
                     (∅ : gmap str str)) by apply map_Forall_empty.
  destruct src as [[]|text [[]|]]; try (eexists; split; [reflexivity|exact Hempty]).
  exists (parse_text text). split; [reflexivity|].
  intros id sequence (lines & Hin & Hid & _ & _)%parse_text_lookup.
  destruct (group_headers _ _ Hin) as (line & Hl & _ & E). simpl in E.
  pose proof (significant_trimmed text) as Hs. rewrite Forall_forall in Hs.
  destruct (Hs line Hl) as (_ & Hlf & Hcr & _).
  split; [exact Hid|]. subst id.
  split; [apply header_id_no_space|].
  split; intros H%header_id_elem; contradiction.
Qed.

(** X3: a line of whitespace only, put between two lines of the text or
    at its start, changes nothing in what is parsed. *)
Theorem X3_blank_line_ignored (before blank after : str) :
  before = [] \/ (exists b, before = b ++ [LF]) ->
  Forall (fun c => isspace c = true) blank ->
  parse_fasta (Opens (before ++ (blank ++ [LF]) ++ after) None)
  = parse_fasta (Opens (before ++ after) None).
Proof.
  intros Hb Hs. unfold parse_fasta, parse_body, parse_text. do 2 f_equal.
  rewrite (readlines_app before _ Hb), (readlines_app before after Hb).
  rewrite (readlines_app (blank ++ [LF]) after) by (right; eauto).
  rewrite !foldl_app. f_equal. apply foldl_step_blank.
  apply Forall_app. split; [exact Hs|]. constructor; [reflexivity|constructor].
Qed.

(** A blank line of a space and a tab between a header and its
    sequence. *)
Lemma X3_blank_line_ignored_witness :
  (py ">A" ++ [LF] = [] \/ exists b, py ">A" ++ [LF] = b ++ [LF]) /\
  Forall (fun c => isspace c = true) [" "; TAB] /\
  parse_fasta (Opens ((py ">A" ++ [LF]) ++ ([" "; TAB] ++ [LF]) ++ py "ACGT") None)
  = parse_fasta (Opens ((py ">A" ++ [LF]) ++ py "ACGT") None).
Proof.
  assert (H1 : py ">A" ++ [LF] = [] \/ exists b, py ">A" ++ [LF] = b ++ [LF])
    by (right; exists (py ">A"); reflexivity).
  assert (H2 : Forall (fun c => isspace c = true) [" "; TAB])
    by (repeat constructor).
  split; [exact H1|]. split; [exact H2|].
  apply (X3_blank_line_ignored _ _ _ H1 H2).
Defined.

(** X4: a text whose line feeds are all written as carriage return and
    line feed is parsed to the same collection. *)
Theorem X4_crlf_line_ends (text : str) :
  parse_fasta (Opens (crlf text) None) = parse_fasta (Opens text None).
Proof.
  unfold parse_fasta, parse_body, parse_text, readlines. do 2 f_equal.
  apply (foldl_step_crlf (length text)). lia.
Qed.

(** X5: the parsed collection has as many entries as there are distinct
    identifiers among the records of the text, and no more than the text
    has header lines. *)
Theorem X5_number_of_records (text : str) :
  exists proteins, parse_fasta (Opens text None) = Returns proteins /\
    size proteins = length (remove_dups (records text).*1) /\
    size proteins
    <= length (filter (fun line => startswith ">" line = true) (significant text)).
Proof.
  exists (parse_text text). split; [reflexivity|].
  assert (E : size (parse_text text) = length (remove_dups (records text).*1)).
  { rewrite parse_text_records. unfold collect.
    rewrite <- size_dom, dom_foldl_enter, dom_empty_L, (left_id_L ∅ (∪)).
    rewrite <- (size_list_to_set (C := gset str) (remove_dups _))
      by apply NoDup_remove_dups.
    f_equal. apply set_eq. intros x.
    rewrite !elem_of_list_to_set, elem_of_remove_dups. reflexivity. }
  split; [exact E|]. rewrite E, <- group_length.
  etransitivity; [apply length_remove_dups|].
  rewrite length_fmap. unfold records, blocks. apply length_filter.
Qed.

(** X6: when a text ends with a line feed and the text after it starts
    with a header, the two together are parsed to the collection of the
    second text completed by the entries of the first under other
    identifiers. *)
Theorem X6_concatenated_texts (before after : str) :
  before = [] \/ (exists b, before = b ++ [LF]) ->
  orphans after = [] ->
  exists p1 p2,
    parse_fasta (Opens before None) = Returns p1 /\
    parse_fasta (Opens after None) = Returns p2 /\
    parse_fasta (Opens (before ++ after) None) = Returns (p2 ∪ p1).
Proof.
  intros Hb Ho. exists (parse_text before), (parse_text after).
  split; [reflexivity|]. split; [reflexivity|].
  unfold parse_fasta, parse_body. f_equal.
  rewrite !parse_text_records. unfold records, blocks.
  rewrite (significant_app _ _ Hb), (group_app _ _ Ho). cbn [snd].
  rewrite filter_app. unfold collect at 1. rewrite foldl_app.
  apply foldl_enter_union.
Qed.

(** Two texts that both hold a record [A]: the one of the second text is
    kept. *)
Lemma X6_concatenated_texts_witness :
  (py ">A" ++ [LF] ++ py "AA" ++ [LF] = []
   \/ exists b, py ">A" ++ [LF] ++ py "AA" ++ [LF] = b ++ [LF]) /\
  orphans (py ">B" ++ [LF] ++ py "BB" ++ [LF] ++ py ">A" ++ [LF] ++ py "CC") = [] /\
  exists p1 p2,
    parse_fasta (Opens (py ">A" ++ [LF] ++ py "AA" ++ [LF]) None) = Returns p1 /\
    parse_fasta (Opens (py ">B" ++ [LF] ++ py "BB" ++ [LF] ++ py ">A" ++ [LF] ++ py "CC") None)
    = Returns p2 /\
    parse_fasta
      (Opens ((py ">A" ++ [LF] ++ py "AA" ++ [LF])
              ++ (py ">B" ++ [LF] ++ py "BB" ++ [LF] ++ py ">A" ++ [LF] ++ py "CC")) None)
    = Returns (p2 ∪ p1).
Proof.
  assert (H1 : py ">A" ++ [LF] ++ py "AA" ++ [LF] = []
               \/ exists b, py ">A" ++ [LF] ++ py "AA" ++ [LF] = b ++ [LF])
    by (right; exists (py ">A" ++ [LF] ++ py "AA"); reflexivity).
  assert (H2 : orphans (py ">B" ++ [LF] ++ py "BB" ++ [LF] ++ py ">A" ++ [LF] ++ py "CC") = [])
    by (vm_compute; reflexivity).
  split; [exact H1|]. split; [exact H2|].
  apply (X6_concatenated_texts _ _ H1 H2).
Defined.

(** X7: the matches reported in a string lie one after the other without
    overlap; each is the part of the string at its offset, has the shape
    of the motif, begins and ends with a cysteine, and is between 18 and
    428 symbols long. *)
Theorem X7_reported_matches (s : str) :
  apart 0 (finditer eight_cysteine_motif_regex s) /\
  Forall (fun x =>
            take (length x.2) (drop x.1 s) = x.2 /\
            motif_shape spacer x.2 /\
            head x.2 = Some "C" /\ last x.2 = Some "C" /\
            18 <= length x.2 <= 428)
    (finditer eight_cysteine_motif_regex s).
Proof.
  destruct (finditer_from_spans eight_cysteine_motif_regex (S (length s)) [] s)
    as [H1 H2].
  split; [exact H2|]. eapply Forall_impl; [exact H1|].
  intros [i m] [E Hm]. cbn [fst snd app] in *. split; [exact E|].
  apply matches_motif in Hm. split; [exact Hm|].
  destruct Hm as (g1 & g2 & g3 & g4 & g5 & g6 & -> & S1 & S2 & S3 & S4 & S5 & S6).
  destruct (motif_text_bounds g1 g2 g3 g4 g5 g6) as [Hh Hl].
  split; [exact Hh|]. split; [exact Hl|].
  rewrite motif_text_length. unfold spacer in *. lia.
Qed.

(** X8: a protein in the result of the motif pipeline has a sequence of
    at least 36 residues with at least 16 cysteines; more precisely, a
    reported count of [n] takes [18 * n] residues and [8 * n] cysteines. *)
Theorem X8_reported_proteins (proteins_data : gmap str str) (id : str) (n : nat) :
  detect_two_or_more_8cm_motifs proteins_data !! id = Some n ->
  exists sequence, proteins_data !! id = Some sequence /\
    18 * n <= length sequence /\ 8 * n <= count "C" sequence /\
    36 <= length sequence /\ 16 <= count "C" sequence.
Proof.
  rewrite detect_omap. intros (sequence & Hr & Hs)%lookup_omap_Some.
  exists sequence. split; [exact Hs|]. unfold reported in Hr.
  destruct (Nat.leb_spec 2 (motif_count sequence)) as [Hge|]; [|discriminate].
  injection Hr as <-.
  pose proof (scan_measure length (@length_app _) eight_cysteine_motif_regex 18
                sequence _ motif_nonempty matches_motif_length
                (findall_scan _ sequence)) as HL.
  pose proof (scan_measure (count "C") (count_app "C") eight_cysteine_motif_regex 8
                sequence _ motif_nonempty matches_motif_cysteines
                (findall_scan _ sequence)) as HC.
  fold (motif_count sequence) in HL, HC. lia.
Qed.

(** A protein made of two shortest motifs with 71 residues between
    them. *)
Lemma X8_reported_proteins_witness :
  detect_two_or_more_8cm_motifs
    {[ py "P1" := minimal_motif ++ replicate 71 "K" ++ minimal_motif ]}
    !! py "P1" = Some 2 /\
  exists sequence,
    ({[ py "P1" := minimal_motif ++ replicate 71 "K" ++ minimal_motif ]}
       : gmap str str) !! py "P1" = Some sequence /\
    18 * 2 <= length sequence /\ 8 * 2 <= count "C" sequence /\
    36 <= length sequence /\ 16 <= count "C" sequence.
Proof.
  assert (H : detect_two_or_more_8cm_motifs
                {[ py "P1" := minimal_motif ++ replicate 71 "K" ++ minimal_motif ]}
                !! py "P1" = Some 2).
  { rewrite detect_omap, lookup_omap, lookup_singleton_eq. vm_compute. reflexivity. }
  split; [exact H|]. apply (X8_reported_proteins _ _ _ H).
Defined.

(** X9: for two collections without a common identifier, the detection
    on both together is the detection on each, put together. *)
Theorem X9_detect_disjoint_union (d1 d2 : gmap str str) :
  d1 ##ₘ d2 ->
  detect_two_or_more_8cm_motifs (d1 ∪ d2)
  = detect_two_or_more_8cm_motifs d1 ∪ detect_two_or_more_8cm_motifs d2.
Proof. intros H. rewrite !detect_omap. apply map_omap_union, H. Qed.

(** Two collections of one protein each. *)
Lemma X9_detect_disjoint_union_witness :
  ({[ py "P1" := minimal_motif ]} : gmap str str) ##ₘ {[ py "P2" := py "ACGT" ]} /\
  detect_two_or_more_8cm_motifs ({[ py "P1" := minimal_motif ]} ∪ {[ py "P2" := py "ACGT" ]})
  = detect_two_or_more_8cm_motifs {[ py "P1" := minimal_motif ]}
    ∪ detect_two_or_more_8cm_motifs {[ py "P2" := py "ACGT" ]}.
Proof.
  assert (H : ({[ py "P1" := minimal_motif ]} : gmap str str)
              ##ₘ {[ py "P2" := py "ACGT" ]}).
  { apply map_disjoint_singleton_l. apply lookup_singleton_ne. discriminate. }
  split; [exact H|]. apply (X9_detect_disjoint_union _ _ H).
Defined.

(** X10: the cysteine-count pipeline hands records to the write step
    exactly when the records could be read and at least one of them has
    eight cysteines, and it hands over these records and no other; the
    file is written when the write step returns.  It returns without
    writing exactly when the input file was not found or no record has
    eight cysteines.  An exception leaves the function exactly when
    reading raised one that is not [FileNotFoundError], or when opening
    or writing the output file raised one, [FileNotFoundError]
    included. *)
Theorem X10_extract_outcome (input : outcome (list SeqRecord))
    (output_fasta_file : str)
    (write : str -> list SeqRecord -> outcome unit) :
  (forall written,
     extract_proteins_with_eight_cysteines input output_fasta_file write
     = Returns (Some written) <->
     exists records, input = Returns records /\ written <> [] /\
       written = filter (fun r => count "C" (record_seq r) = 8) records /\
       write output_fasta_file written = Returns tt) /\
  (extract_proteins_with_eight_cysteines input output_fasta_file write
   = Returns None <->
   input = Raises FileNotFoundError \/
   exists records, input = Returns records /\
     filter (fun r => count "C" (record_seq r) = 8) records = []) /\
  (forall e,
     extract_proteins_with_eight_cysteines input output_fasta_file write
     = Raises e <->
     (input = Raises e /\ e <> FileNotFoundError) \/
     exists records, input = Returns records /\
       filter (fun r => count "C" (record_seq r) = 8) records <> [] /\
       write output_fasta_file
         (filter (fun r => count "C" (record_seq r) = 8) records)
       = Raises e).
Proof.
  assert (E : forall records,
             eight_cysteine_proteins records
             = filter (fun r => count "C" (record_seq r) = 8) records).
  { intros records. unfold eight_cysteine_proteins. apply foldl_select_step. }
  unfold extract_proteins_with_eight_cysteines.
  destruct input as [records|[]].
  - rewrite E. destruct (filter _ records) as [|r l] eqn:F.
    + split; [|split].
      * intros written. split; [discriminate|].
        intros (records' & [= <-] & Hne & -> & _). congruence.
      * split; [|reflexivity]. intros _. right. exists records. auto.
      * intros e. split; [discriminate|].
        intros [[[=] _]|(records' & [= <-] & Hne & _)]. congruence.
    + destruct (write output_fasta_file (r :: l)) as [[]|e'] eqn:W.
      * split; [|split].
        -- intros written. split.
           ++ intros [= <-]. exists records. rewrite F. auto.
           ++ intros (records' & [= <-] & _ & -> & _). rewrite F. reflexivity.
        -- split; [discriminate|].
           intros [[=]|(records' & [= <-] & Hnil)]. congruence.
        -- intros e. split; [discriminate|].
           intros [[[=] _]|(records' & [= <-] & _ & W')]. congruence.
      * split; [|split].
        -- intros written. split; [discriminate|].
           intros (records' & [= <-] & _ & -> & W'). congruence.
        -- split; [discriminate|].
           intros [[=]|(records' & [= <-] & Hnil)]. congruence.
        -- intros e. split.
           ++ intros [= <-]. right. exists records. rewrite F. auto.
           ++ intros [[[=] _]|(records' & [= <-] & _ & W')]. congruence.
  - split; [|split].
    + intros written. split; [discriminate|intros (? & [=] & _)].
    + split; [|reflexivity]. auto.
    + intros e. split; [discriminate|].
      intros [[[= <-] H]|(? & [=] & _)]. congruence.
  - split; [|split].
    + intros written. split; [discriminate|intros (? & [=] & _)].
    + split; [discriminate|]. intros [[=]|(? & [=] & _)].
    + intros e. split.
      * intros [= <-]. left. split; [reflexivity|discriminate].
      * intros [[[= <-] _]|(? & [=] & _)]. reflexivity.
Qed.

(** X11: selecting from two lists of records one after the other is
    selecting from each, and selecting again from what was selected
    changes nothing. *)
Theorem X11_selection_composes (records1 records2 : list SeqRecord) :
  eight_cysteine_proteins (records1 ++ records2)
  = eight_cysteine_proteins records1 ++ eight_cysteine_proteins records2 /\
  eight_cysteine_proteins (eight_cysteine_proteins records1)
  = eight_cysteine_proteins records1.
Proof.
  unfold eight_cysteine_proteins. rewrite !foldl_select_step. cbn [app].
  split; [apply filter_app|apply filter_idemp].
Qed.

(** X12: with its dictionary in insertion order, [parse_fasta] returns
    the identifiers without repetition, each at the place of the first
    record that has it, and the entries are those of the collection
    above; this for every source, a source that cannot be read giving no
    entry. *)
Theorem X12_parse_order (file_path : str) (src : source)
    (message : exception -> str) :
  NoDup (Run.parse_fasta file_path src message).2.*1 /\
  parse_fasta src = Returns (list_to_map (Run.parse_fasta file_path src message).2) /\
  (forall text, src = Opens text None ->
     (Run.parse_fasta file_path src message).2.*1
     = first_occurrences (records text).*1).
Proof.
  destruct (run_parse_fasta_map file_path src message) as [H1 H2].
  split; [exact H1|]. split; [exact H2|].
  intros text ->. simpl. rewrite run_parse_text_records.
  apply foldl_enter_item_keys.
Qed.

(** X13: on a dictionary in insertion order the detection returns the
    proteins with two motifs or more in the order of the dictionary,
    prints one line for each of them in that order after the line that
    names the pattern, and returns the entries of the detection above. *)
Theorem X13_detect_order (proteins_data : list (str * str)) :
  NoDup proteins_data.*1 ->
  Run.detect_two_or_more_8cm_motifs proteins_data
  = (Print (py "Searching for proteins with two or more 8CM motifs using pattern: "
            ++ eight_cysteine_motif_source)
       :: (found_line <$> qualifying proteins_data),
     qualifying proteins_data) /\
  (list_to_map (qualifying proteins_data) : gmap str nat)
  = detect_two_or_more_8cm_motifs (list_to_map proteins_data) /\
  sublist (qualifying proteins_data).*1 proteins_data.*1 /\
  Forall (fun item => 2 <= item.2) (qualifying proteins_data).
Proof.
  intros Hd. split; [|split; [|split]].
  - apply run_detect, Hd.
  - apply list_to_map_qualifying, Hd.
  - apply qualifying_sublist.
  - apply qualifying_counts.
Qed.

(** Three proteins, the second and the third with two motifs. *)
Lemma X13_detect_order_witness :
  NoDup [(py "P3", py "ACGT");
         (py "P2", minimal_motif ++ replicate 71 "K" ++ minimal_motif);
         (py "P1", minimal_motif ++ replicate 71 "A" ++ minimal_motif)].*1 /\
  qualifying [(py "P3", py "ACGT");
              (py "P2", minimal_motif ++ replicate 71 "K" ++ minimal_motif);
              (py "P1", minimal_motif ++ replicate 71 "A" ++ minimal_motif)]
  = [(py "P2", 2); (py "P1", 2)] /\
  (list_to_map
     (qualifying [(py "P3", py "ACGT");
                  (py "P2", minimal_motif ++ replicate 71 "K" ++ minimal_motif);
                  (py "P1", minimal_motif ++ replicate 71 "A" ++ minimal_motif)])
   : gmap str nat)
  = detect_two_or_more_8cm_motifs
      (list_to_map
         [(py "P3", py "ACGT");
          (py "P2", minimal_motif ++ replicate 71 "K" ++ minimal_motif);
          (py "P1", minimal_motif ++ replicate 71 "A" ++ minimal_motif)]).
Proof.
  assert (H : NoDup [(py "P3", py "ACGT");
                     (py "P2", minimal_motif ++ replicate 71 "K" ++ minimal_motif);
                     (py "P1", minimal_motif ++ replicate 71 "A" ++ minimal_motif)].*1).
  { rewrite !fmap_cons. cbn [fst fmap list_fmap].
    repeat (apply NoDup_cons; split); try apply NoDup_nil_2;
      rewrite ?not_elem_of_cons; repeat split;
      try apply not_elem_of_nil; discriminate. }
  split; [exact H|]. split; [vm_compute; reflexivity|].
  apply (X13_detect_order _ H).
Defined.




(** X16: [strip] takes away whitespace at the two ends and nothing else:
    the string is whitespace, then the trimmed string, then whitespace,
    and the trimmed string neither begins nor ends with whitespace;
    trimming a trimmed string changes nothing. *)
Theorem X16_strip (s : str) :
  (exists lead trail,
     s = lead ++ strip s ++ trail /\
     Forall (fun c => isspace c = true) lead /\
     Forall (fun c => isspace c = true) trail) /\
  (forall c, head (strip s) = Some c -> isspace c = false) /\
  (forall c, last (strip s) = Some c -> isspace c = false) /\
  strip (strip s) = strip s.
Proof.
  assert (Hh : forall c, head (strip s) = Some c -> isspace c = false)
    by apply strip_head.
  assert (Hl : forall c, last (strip s) = Some c -> isspace c = false)
    by (unfold strip; apply rstrip_last).
  split; [|split; [exact Hh|split; [exact Hl|]]].
  - destruct (lstrip_split s) as (lead & E1 & H1).
    destruct (rstrip_split (lstrip s)) as (trail & E2 & H2).
    exists lead, trail. split; [|split; assumption].
    unfold strip. rewrite <- E2. exact E1.
  - unfold strip at 1. rewrite (lstrip_id _ Hh). apply rstrip_id, Hl.
Qed.

(** X17: [split] cuts a string at every separator and nowhere else:
    joining the parts with the separator gives the string back, no part
    holds the separator, and there is one part more than there are
    separators in the string. *)
Theorem X17_split_join (sep : ascii) (s : str) :
  join sep (split sep s) = s /\
  Forall (fun part => sep ∉ part) (split sep s) /\
  length (split sep s) = S (count sep s).
Proof.
  induction s as [|c s (IH1 & IH2 & IH3)].
  - split; [reflexivity|]. split; [|reflexivity].
    constructor; [apply not_elem_of_nil|constructor].
  - pose proof (split_nonempty sep s) as Hne. cbn [split count].
    destruct (split sep s) as [|w ws] eqn:E; [congruence|].
    destruct (Ascii.eqb_spec c sep) as [->|Hc].
    + split; [rewrite join_cons, IH1; reflexivity|].
      split; [constructor; [apply not_elem_of_nil|exact IH2]|].
      cbn [length] in *. lia.
    + apply Forall_cons in IH2 as [Hw Hws].
      split; [|split].
      * destruct ws as [|w' ws].
        -- cbn [join] in *. rewrite IH1. reflexivity.
        -- rewrite join_cons in *. rewrite <- IH1. reflexivity.
      * constructor; [|exact Hws].
        rewrite not_elem_of_cons. split; [congruence|exact Hw].
      * cbn [length] in *. lia.
Qed.

End FurtherStatements.
